(** * Execution Roadmap: health-status utilities and the item fetcher

    A shallow embedding of the behavioural code of the repository:
    - [types/ExecutionItem.ts]: [HealthStatus], [ExecutionItem];
    - [composables/useHealthStatus.ts]: [HEALTH_STATUS_CONFIG],
      [classifyStatus], [getStatusConfig], [isValidStatus], [getAllStatuses];
    - the badge formatting utilities: [getStatusLabel], [getStatusColor],
      [getStatusClassName];
    - [composables/useExecutionItems.ts]: [getApiConfig], [fetchItems],
      [refetch] and the three refs [items], [loading], [error].

    JavaScript values that reach the code at run time (the parsed JSON body)
    are modelled by the type [value]; the asynchronous function [fetchItems]
    is a program of a small resumption monad that suspends at each [await]. *)

From Stdlib Require Import Floats.
From stdpp Require Import base strings list gmap pretty sorting.

#[local] Set Warnings "-register-all".
#[local] Open Scope string_scope.

(** ** JavaScript values *)

(** The values [JSON.parse] produces, plus [undefined] (the value of a missing
    property).  Numbers are IEEE doubles.  An object is the list of its own
    enumerable properties in property order; a string is a sequence of
    characters (one [ascii] stands for one code unit). *)
Inductive value : Type :=
| VUndefined
| VNull
| VBool (b : bool)
| VNum (f : float)
| VStr (s : string)
| VArr (elements : list value)
| VObj (fields : list (string * value)).

(** The [TypeError]s the engine itself raises in this code: a property read
    on [null] or [undefined], and a call of a property that is no function. *)
Inductive type_error : Type :=
| NullishRead (base : value) (property : string)
| NotAFunction (base : value) (property : string).

(** What a [throw] or a rejected promise carries, as far as the [catch] block
    of [fetchItems] can tell values apart: an [Error] instance with its
    message, a [TypeError] of the engine (an [Error] instance too), or a
    value that is not an [Error] instance. *)
Inductive thrown : Type :=
| ErrorValue (message : string)
| TypeError (e : type_error)
| NonError.

(** A settled promise, or the completion of a synchronous expression. *)
Inductive settled (A : Type) : Type :=
| Fulfilled (a : A)
| Rejected (t : thrown).
Arguments Fulfilled {A} a.
Arguments Rejected {A} t.

#[global] Instance settled_ret : MRet settled := λ A a, Fulfilled a.
#[global] Instance settled_bind : MBind settled := λ A B f m,
  match m with
  | Fulfilled a => f a
  | Rejected t => Rejected t
  end.

(** [ToBoolean]: the falsy values are [undefined], [null], [false], [0],
    [-0], [NaN] and the empty string. *)
Definition truthy (v : value) : bool :=
  match v with
  | VUndefined | VNull => false
  | VBool b => b
  | VNum f => negb (PrimFloat.is_zero f || PrimFloat.is_nan f)
  | VStr s => negb (bool_decide (s = EmptyString))
  | VArr _ | VObj _ => true
  end.

(** [Array.isArray]. *)
Definition isArray (v : value) : bool :=
  match v with
  | VArr _ => true
  | _ => false
  end.

(** Own property lookup in an object's property list. *)
Fixpoint field (k : string) (fs : list (string * value)) : option value :=
  match fs with
  | [] => None
  | (k', v) :: fs' => if decide (k' = k) then Some v else field k fs'
  end.

(** [base.k] for a property name [k] that no prototype defines (the code only
    reads [items] and [healthStatus]): a [TypeError] on [null] and
    [undefined], the own property of an object, [undefined] otherwise. *)
Definition get (base : value) (k : string) : settled value :=
  match base with
  | VUndefined | VNull => Rejected (TypeError (NullishRead base k))
  | VObj fs => Fulfilled (default VUndefined (field k fs))
  | _ => Fulfilled VUndefined
  end.

(** [CreateDataProperty]: an existing property keeps its place and gets the
    new value, a new one is added last. *)
Fixpoint define (k : string) (v : value) (fs : list (string * value))
  : list (string * value) :=
  match fs with
  | [] => [(k, v)]
  | (k', v') :: fs' =>
      if decide (k' = k) then (k, v) :: fs' else (k', v') :: define k v fs'
  end.

(** The own enumerable properties a spread [...src] copies: the fields of an
    object, the indexed elements of an array, the indexed characters of a
    string, nothing for the other values. *)
Definition own_properties (src : value) : list (string * value) :=
  match src with
  | VObj fs => fs
  | VArr xs => imap (λ i x, (pretty i, x)) xs
  | VStr s =>
      imap (λ i c, (pretty i, VStr (String c EmptyString)))
           (String.list_ascii_of_string s)
  | _ => []
  end.

(** [{ ...src }] continued into the object under construction [target]. *)
Definition spread (src : value) (target : list (string * value))
  : list (string * value) :=
  foldl (λ acc kv, define kv.1 kv.2 acc) target (own_properties src).

(** [xs.map(f)] for a callback that may throw: the first exception ends the
    loop and no array is produced. *)
Fixpoint array_map (f : value → settled value) (xs : list value)
  : settled (list value) :=
  match xs with
  | [] => Fulfilled []
  | x :: xs' => y ← f x; ys ← array_map f xs'; Fulfilled (y :: ys)
  end.

(** An object as [JSON.parse] builds it: no property name occurs twice. *)
Definition json_object (v : value) : Prop :=
  ∃ fs, v = VObj fs ∧ NoDup fs.*1.

(** [needle] occurs in [hay] ([hay.includes(needle)], Jest's [toContain]). *)
Definition contains (hay needle : string) : Prop :=
  ∃ before after, hay = before ++ needle ++ after.

(** ** types/ExecutionItem.ts *)

(** [type HealthStatus = 'on-track' | 'at-risk' | 'off-track'] *)
Inductive HealthStatus : Type := on_track | at_risk | off_track.

(** The string literal each member of the union is at run time. *)
Definition literal (h : HealthStatus) : string :=
  match h with
  | on_track => "on-track"
  | at_risk => "at-risk"
  | off_track => "off-track"
  end.

Record ExecutionItem : Type := {
  moduleName : string;
  owner : string;
  pm : string;
  healthStatus : HealthStatus;
  teamWorking : string;
  okrHierarchy : string
}.

(** The run-time object of a typed [ExecutionItem], fields in declaration
    order. *)
Definition item_value (it : ExecutionItem) : value :=
  VObj [ ("moduleName", VStr (moduleName it));
         ("owner", VStr (owner it));
         ("pm", VStr (pm it));
         ("healthStatus", VStr (literal (healthStatus it)));
         ("teamWorking", VStr (teamWorking it));
         ("okrHierarchy", VStr (okrHierarchy it)) ].

(** ** composables/useHealthStatus.ts *)

(** ['success' | 'warning' | 'error']; the last is spelled [error_severity]
    here, [error] being the ref of the fetcher. *)
Inductive Severity : Type := success | warning | error_severity.

Record HealthStatusConfig : Type := {
  label : string;
  color : string;
  backgroundColor : string;
  severity : Severity
}.

(** The object literal [HEALTH_STATUS_CONFIG], keyed by status string. *)
Definition HEALTH_STATUS_CONFIG : gmap string HealthStatusConfig :=
  {[ "on-track" :=
       {| label := "On Track"; color := "#0ed183";
          backgroundColor := "#eefbf2"; severity := success |};
     "at-risk" :=
       {| label := "At Risk"; color := "#ff514e";
          backgroundColor := "#ffefed"; severity := error_severity |};
     "off-track" :=
       {| label := "Off Track"; color := "#ffab26";
          backgroundColor := "#fff7ed"; severity := warning |} ]}.

(** [classifyStatus = (item) => item.healthStatus], on whatever value the
    caller passes. *)
Definition classifyStatus (item : value) : settled value :=
  get item "healthStatus".

(** [getStatusConfig = (status) => HEALTH_STATUS_CONFIG[status]]; [None] is
    JavaScript's [undefined] for a key the object does not have. *)
Definition getStatusConfig (status : HealthStatus) : option HealthStatusConfig :=
  HEALTH_STATUS_CONFIG !! literal status.

(** [Array.prototype.includes] on an array of strings. *)
Definition includes (xs : list string) (x : string) : bool :=
  bool_decide (x ∈ xs).

Definition isValidStatus (v : string) : bool :=
  includes ["on-track"; "at-risk"; "off-track"] v.

Definition getAllStatuses : list string :=
  ["on-track"; "at-risk"; "off-track"].

(** ** The badge formatting utilities *)

(** An argument of type [T | undefined | null]. *)
Inductive nullable (A : Type) : Type :=
| Undefined
| Null
| Defined (a : A).
Arguments Undefined {A}.
Arguments Null {A}.
Arguments Defined {A} a.

(** [!status] for a status argument: true for [undefined], [null] and the
    empty string. *)
Definition falsy (status : nullable string) : bool :=
  match status with
  | Undefined | Null => true
  | Defined s => bool_decide (s = EmptyString)
  end.

Record StatusColors : Type := {
  text : string;
  background : string
}.

Definition getStatusLabel (status : nullable string) : string :=
  if falsy status then "Unknown"
  else match status with
       | Defined s =>
           if bool_decide (s = "on-track") then "On track"
           else if bool_decide (s = "at-risk") then "At Risks"
           else if bool_decide (s = "off-track") then "Off Track"
           else "Unknown"
       | _ => "Unknown"
       end.

Definition getStatusColor (status : nullable string) : StatusColors :=
  if falsy status then {| text := "#656b75"; background := "#f3f3f3" |}
  else match status with
       | Defined s =>
           if bool_decide (s = "on-track")
           then {| text := "#0ed183"; background := "#eefbf2" |}
           else if bool_decide (s = "at-risk")
           then {| text := "#ff514e"; background := "#ffefed" |}
           else if bool_decide (s = "off-track")
           then {| text := "#ffab26"; background := "#fff7ed" |}
           else {| text := "#656b75"; background := "#f3f3f3" |}
       | _ => {| text := "#656b75"; background := "#f3f3f3" |}
       end.

Definition getStatusClassName (status : nullable string) : string :=
  if falsy status then "health-status-unknown"
  else match status with
       | Defined s => "health-status-" ++ s
       | Undefined => "health-status-undefined"
       | Null => "health-status-null"
       end.

(** ** composables/useExecutionItems.ts *)

(** *** The platform *)

(** The message text of the engine's own [TypeError]s.  ECMAScript leaves it
    to the engine. *)
Class Engine : Type := {
  typeErrorMessage : type_error → string
}.

(** [import.meta.env]: each variable is a string or unset ([None]). *)
Record ImportMetaEnv : Type := {
  VITE_API_BASE_URL : option string;
  VITE_API_EXECUTION_ITEMS_ENDPOINT : option string
}.

(** [x || fallback] for a string-or-unset [x]. *)
Definition or_else (x : option string) (fallback : string) : string :=
  match x with
  | Some s => if bool_decide (s = EmptyString) then fallback else s
  | None => fallback
  end.

(** The second argument of [fetch]. *)
Record RequestInit : Type := {
  method : string;
  headers : list (string * string)
}.

(** What the code reads of a [Response]: [status], [statusText] and what
    [response.json()] settles to. *)
Record Response : Type := {
  status : N;
  statusText : string;
  body : settled value
}.

(** [response.ok], as the Fetch standard defines it: the status is in the
    range 200 to 299. *)
Definition ok (response : Response) : bool :=
  bool_decide (200 ≤ status response ≤ 299)%N.

(** The two promises [fetchItems] awaits, indexed by what they fulfil with. *)
Inductive await_op : Type → Type :=
| fetch (url : string) (init : RequestInit) : await_op Response
| json (response : Response) : await_op value.

(** The network as one run sees it: what [fetch] settles to. *)
Definition world : Type := string → RequestInit → settled Response.

Definition answer (w : world) {X} (op : await_op X) : settled X :=
  match op with
  | fetch url init => w url init
  | json response => body response
  end.

(** *** The reactive state *)

(** The three refs of [useExecutionItems]. *)
Record state : Type := {
  items : list value;
  loading : bool;
  error : option string
}.

(** *** Asynchronous programs *)

(** A run of an async function from a given state either has finished, with
    the state it leaves and its completion, or is suspended at an [await]:
    the state others can observe meanwhile, the awaited promise, and the rest
    of the function, resumed with what the promise settled to and the state
    found at that moment. *)
Inductive step (A : Type) : Type :=
| Finished (s : state) (c : settled A)
| Suspended {X : Type} (s : state) (op : await_op X)
    (k : settled X → state → step A).
Arguments Finished {A} s c.
Arguments Suspended {A X} s op k.

Definition prog (A : Type) : Type := state → step A.

Fixpoint bind_step {A B} (f : A → prog B) (st : step A) : step B :=
  match st with
  | Finished s (Fulfilled a) => f a s
  | Finished s (Rejected t) => Finished s (Rejected t)
  | Suspended s op k => Suspended s op (λ r s', bind_step f (k r s'))
  end.

#[global] Instance prog_ret : MRet prog := λ A a s, Finished s (Fulfilled a).
#[global] Instance prog_bind : MBind prog := λ A B f m s, bind_step f (m s).

Definition throw {A} (t : thrown) : prog A := λ s, Finished s (Rejected t).

(** A synchronous expression evaluated inside an async function. *)
Definition lift {A} (c : settled A) : prog A := λ s, Finished s c.

(** [await p] *)
Definition await {X} (op : await_op X) : prog X :=
  λ s, Suspended s op (λ r s', Finished s' r).

(** [try { body } catch (err) { handler }] *)
Fixpoint catch_step {A} (handler : thrown → prog A) (st : step A) : step A :=
  match st with
  | Finished s (Fulfilled a) => Finished s (Fulfilled a)
  | Finished s (Rejected t) => handler t s
  | Suspended s op k => Suspended s op (λ r s', catch_step handler (k r s'))
  end.

Definition try_catch {A} (body : prog A) (handler : thrown → prog A) : prog A :=
  λ s, catch_step handler (body s).

(** [try { body } finally { cleanup }]: the cleanup runs on both exits and
    the completion of the body stands unless the cleanup throws. *)
Fixpoint finally_step {A} (cleanup : prog unit) (st : step A) : step A :=
  match st with
  | Finished s c => bind_step (λ _ s', Finished s' c) (cleanup s)
  | Suspended s op k => Suspended s op (λ r s', finally_step cleanup (k r s'))
  end.

Definition try_finally {A} (body : prog A) (cleanup : prog unit) : prog A :=
  λ s, finally_step cleanup (body s).

(** Assignments to the refs. *)
Definition set_items (v : list value) : prog unit :=
  λ s, Finished {| items := v; loading := loading s; error := error s |}
                (Fulfilled tt).
Definition set_loading (b : bool) : prog unit :=
  λ s, Finished {| items := items s; loading := b; error := error s |}
                (Fulfilled tt).
Definition set_error (e : option string) : prog unit :=
  λ s, Finished {| items := items s; loading := loading s; error := e |}
                (Fulfilled tt).

(** Runs a program to completion when nothing else touches the state while it
    is suspended. *)
Fixpoint run {A} (w : world) (st : step A) : state * settled A :=
  match st with
  | Finished s c => (s, c)
  | Suspended s op k => run w (k (answer w op) s)
  end.

(** The states an observer can see during such a run: one per suspension and
    the final one. *)
Fixpoint observed {A} (w : world) (st : step A) : list state :=
  match st with
  | Finished s _ => [s]
  | Suspended s op k => s :: observed w (k (answer w op) s)
  end.

(** *** getApiConfig *)

Record ApiConfig : Type := {
  baseUrl : string;
  endpoint : string;
  fullUrl : string
}.

Definition getApiConfig (env : ImportMetaEnv) : ApiConfig :=
  let baseUrl := or_else (VITE_API_BASE_URL env) EmptyString in
  let endpoint :=
    or_else (VITE_API_EXECUTION_ITEMS_ENDPOINT env) "/api/execution-items" in
  {| baseUrl := baseUrl; endpoint := endpoint; fullUrl := baseUrl ++ endpoint |}.

(** *** useExecutionItems *)

(** The refs as [useExecutionItems] creates them.  The composable starts no
    fetch itself: [onMounted] calls [fetchItems] once the component is
    mounted, and the caller may call [refetch]. *)
Definition useExecutionItems : state :=
  {| items := []; loading := false; error := None |}.

(** The message literals of [fetchItems]. *)
Definition configurationMessage : string :=
  "API endpoint not configured. Please set VITE_API_BASE_URL and VITE_API_EXECUTION_ITEMS_ENDPOINT environment variables.".

Definition httpMessage (response : Response) : string :=
  "Failed to fetch execution items: " ++ pretty (status response) ++ " "
    ++ statusText response.

Definition dquote : string := String (Ascii.ascii_of_nat 34) EmptyString.

Definition validationMessage : string :=
  "Invalid API response: missing or invalid " ++ dquote ++ "items" ++ dquote
    ++ " array".

Definition unknownMessage : string :=
  "Unknown error occurred while fetching execution items".

(** The options object passed to [fetch]. *)
Definition requestInit : RequestInit :=
  {| method := "GET"; headers := [("Content-Type", "application/json")] |}.

(** [item => ({ ...item, healthStatus: classifyStatus(item) })] *)
Definition normalizeItem (item : value) : settled value :=
  let copy := spread item [] in
  h ← classifyStatus item;
  Fulfilled (VObj (define "healthStatus" h copy)).

(** [!data.items || !Array.isArray(data.items)] *)
Definition invalidItems (data : value) : settled bool :=
  v ← get data "items";
  if negb (truthy v) then Fulfilled true
  else v' ← get data "items"; Fulfilled (negb (isArray v')).

(** [data.items.map(callback)] *)
Definition mapItems (callback : value → settled value) (data : value)
  : settled (list value) :=
  v ← get data "items";
  match v with
  | VArr xs => array_map callback xs
  | VUndefined | VNull => Rejected (TypeError (NullishRead v "map"))
  | _ => Rejected (TypeError (NotAFunction v "map"))
  end.

(** [err instanceof Error ? err.message : 'Unknown error ...'] *)
Definition errorMessage {engine : Engine} (err : thrown) : string :=
  match err with
  | ErrorValue m => m
  | TypeError e => typeErrorMessage e
  | NonError => unknownMessage
  end.

(** The [try] block of [fetchItems].  The [console.log] after the
    assignment, like the [console.error] of the [catch] block, touches none
    of the refs and is left out. *)
Definition fetchItems_try (env : ImportMetaEnv) : prog unit :=
  let config := getApiConfig env in
  (if negb (truthy (VStr (fullUrl config)))
   then throw (ErrorValue configurationMessage) else mret tt);;
  response ← await (fetch (fullUrl config) requestInit);
  (if negb (ok response)
   then throw (ErrorValue (httpMessage response)) else mret tt);;
  data ← await (json response);
  invalid ← lift (invalidItems data);
  (if invalid : bool
   then throw (ErrorValue validationMessage) else mret tt);;
  normalized ← lift (mapItems normalizeItem data);
  set_items normalized.

(** The [catch] block of [fetchItems]. *)
Definition fetchItems_catch {engine : Engine} (err : thrown) : prog unit :=
  set_error (Some (errorMessage err));;
  set_items [].

Definition fetchItems {engine : Engine} (env : ImportMetaEnv) : prog unit :=
  set_loading true;;
  set_error None;;
  try_finally
    (try_catch (fetchItems_try env) fetchItems_catch)
    (set_loading false).

(** [refetch = async () => { await fetchItems(); }] *)
Definition refetch {engine : Engine} (env : ImportMetaEnv) : prog unit :=
  fetchItems env;;
  mret tt.

(** The refs after a history of completed loads, oldest first, each against
    the configuration and the network of its moment, starting from the refs
    as created. *)
Definition loads {engine : Engine} (history : list (ImportMetaEnv * world))
  : state :=
  foldl (λ s h, (run h.2 (fetchItems h.1 s)).1) useExecutionItems history.

(** *** Outcomes of one run *)

(** What the [try] block of [fetchItems] comes to, as a function of the
    configuration and the network alone: the array assigned to [items], or
    the value thrown.  [run_fetchItems_try] proves that the program computes
    exactly this. *)
Definition attempt (env : ImportMetaEnv) (w : world) : settled (list value) :=
  let config := getApiConfig env in
  if negb (truthy (VStr (fullUrl config)))
  then Rejected (ErrorValue configurationMessage)
  else
    response ← w (fullUrl config) requestInit;
    if negb (ok response) then Rejected (ErrorValue (httpMessage response))
    else
      data ← body response;
      invalid ← invalidItems data;
      if invalid : bool then Rejected (ErrorValue validationMessage)
      else mapItems normalizeItem data.

(** The ways one run fails, by the step that fails, with the value thrown. *)
Inductive failure (env : ImportMetaEnv) (w : world) : thrown → Prop :=
| configuration_failure :
    fullUrl (getApiConfig env) = EmptyString →
    failure env w (ErrorValue configurationMessage)
| transport_failure t :
    w (fullUrl (getApiConfig env)) requestInit = Rejected t →
    failure env w t
| http_failure response :
    w (fullUrl (getApiConfig env)) requestInit = Fulfilled response →
    ok response = false →
    failure env w (ErrorValue (httpMessage response))
| parse_failure response t :
    w (fullUrl (getApiConfig env)) requestInit = Fulfilled response →
    ok response = true →
    body response = Rejected t →
    failure env w t
| validation_failure response data :
    w (fullUrl (getApiConfig env)) requestInit = Fulfilled response →
    ok response = true →
    body response = Fulfilled data →
    invalidItems data = Fulfilled true →
    failure env w (ErrorValue validationMessage)
| validation_throws response data t :
    w (fullUrl (getApiConfig env)) requestInit = Fulfilled response →
    ok response = true →
    body response = Fulfilled data →
    invalidItems data = Rejected t →
    failure env w t
| normalization_failure response data t :
    w (fullUrl (getApiConfig env)) requestInit = Fulfilled response →
    ok response = true →
    body response = Fulfilled data →
    invalidItems data = Fulfilled false →
    mapItems normalizeItem data = Rejected t →
    failure env w t.

(** The run that succeeds: a 2xx response whose body parses to a value with
    an [items] array [its], every element of which normalizes; [xs] is the
    normalized array. *)
Definition succeeds (env : ImportMetaEnv) (w : world) (xs : list value) : Prop :=
  ∃ response data its,
    w (fullUrl (getApiConfig env)) requestInit = Fulfilled response
    ∧ ok response = true
    ∧ body response = Fulfilled data
    ∧ get data "items" = Fulfilled (VArr its)
    ∧ array_map normalizeItem its = Fulfilled xs.

(** The state a completed run may leave: the normalized items of this run's
    successful fetch and no error, or no items and an error. *)
Definition settled_state (env : ImportMetaEnv) (w : world) (s : state) : Prop :=
  loading s = false
  ∧ ((error s = None ∧ succeeds env w (items s))
     ∨ (error s ≠ None ∧ items s = [])).

(** ** Overlapping loads *)

(** An awaited promise, whatever it fulfils with. *)
Definition awaiting {X : Type} (op : await_op X) : {X : Type & await_op X} :=
  existT X op.

(** The promises a run awaits, in order, when nothing else touches the refs
    meanwhile. *)
Fixpoint awaited {A} (w : world) (st : step A)
  : list {X : Type & await_op X} :=
  match st with
  | Finished _ _ => []
  | Suspended s op k => awaiting op :: awaited w (k (answer w op) s)
  end.

(** The state a run left when it last gave up control. *)
Definition state_of {A} (st : step A) : state :=
  match st with
  | Finished s _ => s
  | Suspended s _ _ => s
  end.

Definition finished {A} (st : step A) : bool :=
  match st with
  | Finished _ _ => true
  | Suspended _ _ _ => false
  end.

(** The awaited promise of a suspended run settles: its continuation runs, in
    the state [cur] the refs are in by then, up to the next [await] or to the
    end. *)
Definition resume {A} (w : world) (st : step A) (cur : state) : step A :=
  match st with
  | Finished _ _ => st
  | Suspended _ op k => k (answer w op) cur
  end.

(** What happens to one instance of the composable: [fetchItems] is called
    (by [onMounted] or through [refetch]) under some configuration, with [w]
    the network's answer to that call; or the promise that the call numbered
    [i] is waiting for settles. *)
Inductive event : Type :=
| call (env : ImportMetaEnv) (w : world)
| settle (i : nat).

(** The refs and the calls made so far, each with its configuration, its
    network and how far it has run. *)
Record pool : Type := {
  refs : state;
  calls : list (ImportMetaEnv * world * step unit)
}.

(** JavaScript runs one continuation at a time, each to its next [await]:
    a call runs [fetchItems] up to its first [await]; a settlement runs the
    continuation of a call still waiting, and does nothing for a call that
    has finished or was never made. *)
Definition react {engine : Engine} (p : pool) (e : event) : pool :=
  match e with
  | call env w =>
      let st := fetchItems env (refs p) in
      {| refs := state_of st; calls := (calls p ++ [(env, w, st)])%list |}
  | settle i =>
      match calls p !! i with
      | Some (env, w, st) =>
          if finished st then p
          else
            let st' := resume w st (refs p) in
            {| refs := state_of st';
               calls := <[i := (env, w, st')]> (calls p) |}
      | None => p
      end
  end.

Definition event_loop {engine : Engine} (events : list event) : pool :=
  foldl react {| refs := useExecutionItems; calls := [] |} events.

(** What the last continuation of a call does to the refs it finds. *)
Definition finish {engine : Engine} (env : ImportMetaEnv) (w : world)
    (cur : state) : state :=
  match attempt env w with
  | Fulfilled xs => {| items := xs; loading := false; error := error cur |}
  | Rejected t =>
      {| items := []; loading := false; error := Some (errorMessage t) |}
  end.

(** How far a call of [fetchItems] can be: just made and waiting for the
    fetch, waiting for [response.json()] with only its last continuation
    left, or finished. *)
Inductive progress {engine : Engine} (env : ImportMetaEnv) (w : world)
  : step unit → Prop :=
| waiting_fetch s : progress env w (fetchItems env s)
| waiting_json st :
    finished st = false →
    (∀ cur, resume w st cur = Finished (finish env w cur) (Fulfilled tt)) →
    progress env w st
| completed s : progress env w (Finished s (Fulfilled tt)).

(** The calls of a pool are all calls of [fetchItems] somewhere on their
    way. *)
Definition well_formed {engine : Engine} (p : pool) : Prop :=
  Forall (λ c, progress c.1.1 c.1.2 c.2) (calls p).

(** ** types/TableSortConfig.ts and its validation file *)

(** [type SortDirection = 'asc' | 'desc'] *)
Inductive SortDirection : Type := asc | desc.

(** [keyof ExecutionItem] *)
Inductive Column : Type :=
| by_moduleName
| by_owner
| by_pm
| by_healthStatus
| by_teamWorking
| by_okrHierarchy.

Record TableSortConfig : Type := {
  column : Column;
  direction : SortDirection
}.

(** [item[column]]: every column of an item is a string at run time. *)
Definition column_value (c : Column) (item : ExecutionItem) : string :=
  match c with
  | by_moduleName => moduleName item
  | by_owner => owner item
  | by_pm => pm item
  | by_healthStatus => literal (healthStatus item)
  | by_teamWorking => teamWorking item
  | by_okrHierarchy => okrHierarchy item
  end.

(** The comparison function [sortExecutionItems] passes to [sort]; [<] and
    [>] on two strings compare them unit by unit. *)
Definition compareItems (config : TableSortConfig) (a b : ExecutionItem) : Z :=
  let aValue := column_value (column config) a in
  let bValue := column_value (column config) b in
  let comparison :=
    if String.ltb aValue bValue then (-1)%Z
    else if String.ltb bValue aValue then 1%Z
    else 0%Z in
  match direction config with
  | asc => comparison
  | desc => (- comparison)%Z
  end.

(** [Array.prototype.sort]: which algorithm runs is the engine's choice.
    ECMAScript fixes the result for a consistent comparison function: the
    array holds the same elements afterwards, and none of them compares
    greater than a later one. *)
Definition consistent {A : Type} (cmp : A → A → Z) : Prop :=
  (∀ a, cmp a a = 0%Z)
  ∧ (∀ a b, cmp b a = (- cmp a b)%Z)
  ∧ (∀ a b c, (cmp a b ≤ 0)%Z → (cmp b c ≤ 0)%Z → (cmp a c ≤ 0)%Z).

Class ArraySort : Type := {
  array_sort : ∀ {A : Type}, (A → A → Z) → list A → list A;
  array_sort_permutation :
    ∀ {A : Type} (cmp : A → A → Z) (l : list A),
      consistent cmp → array_sort cmp l ≡ₚ l;
  array_sort_sorted :
    ∀ {A : Type} (cmp : A → A → Z) (l : list A),
      consistent cmp →
      StronglySorted (λ a b, (cmp a b ≤ 0)%Z) (array_sort cmp l)
}.

(** Arrays are objects: a variable holds a reference, and [sort] reorders
    the array referred to and returns the same reference. *)
Definition sortExecutionItems {engine_sort : ArraySort} (items : nat)
    (config : TableSortConfig) (heap : gmap nat (list ExecutionItem))
  : gmap nat (list ExecutionItem) * nat :=
  match heap !! items with
  | Some elements =>
      (<[items := array_sort (compareItems config) elements]> heap, items)
  | None => (heap, items)
  end.

(** The order [config] asks for, on the values of its column. *)
Definition ordered (config : TableSortConfig) (a b : ExecutionItem) : Prop :=
  match direction config with
  | asc =>
      String.leb (column_value (column config) a)
                 (column_value (column config) b) = true
  | desc =>
      String.leb (column_value (column config) b)
                 (column_value (column config) a) = true
  end.

(** An engine: merge sort. *)
Definition merge_sort_engine : ArraySort.
Proof.
  refine {| array_sort A cmp l :=
              merge_sort (λ a b, (cmp a b ≤ 0)%Z)
                         (H:=λ a b, Z_le_dec (cmp a b) 0) l |}.
  - intros A cmp l _. apply merge_sort_Permutation.
  - intros A cmp l (Hrefl & Hanti & Htrans).
    apply StronglySorted_merge_sort.
    + intros a b c. apply Htrans.
    + intros a b. specialize (Hanti a b). lia.
Defined.

(** The sample of the validation file. *)
Definition sampleItems : list ExecutionItem :=
  [ {| moduleName := "Module B"; owner := "John Doe"; pm := "Jane Smith";
       healthStatus := on_track; teamWorking := "Squad 1";
       okrHierarchy := "O1 > KR1 > Initiative A" |};
    {| moduleName := "Module A"; owner := "Alice Johnson";
       pm := "Bob Williams"; healthStatus := at_risk;
       teamWorking := "Squad 2";
       okrHierarchy := "O1 > KR2 > Initiative B" |} ].

Definition validConfig1 : TableSortConfig :=
  {| column := by_moduleName; direction := asc |}.

Definition validConfig2 : TableSortConfig :=
  {| column := by_owner; direction := desc |}.

(** ** tests/setup.ts: the environment defaults *)

(** [if (!import.meta.env.X) import.meta.env.X = default], for both
    variables. *)
Definition setupEnv (env : ImportMetaEnv) : ImportMetaEnv :=
  {| VITE_API_BASE_URL :=
       Some (or_else (VITE_API_BASE_URL env) "http://localhost:3000");
     VITE_API_EXECUTION_ITEMS_ENDPOINT :=
       Some (or_else (VITE_API_EXECUTION_ITEMS_ENDPOINT env)
                     "/api/execution-items") |}.

(** ** Fixtures *)

(** V8's wording of its [TypeError]s (Node.js, Chrome). *)
Definition v8 : Engine :=
  {| typeErrorMessage e :=
       match e with
       | NullishRead VNull k =>
           "Cannot read properties of null (reading '" ++ k ++ "')"
       | NullishRead _ k =>
           "Cannot read properties of undefined (reading '" ++ k ++ "')"
       | NotAFunction _ k => "data.items." ++ k ++ " is not a function"
       end |}.

(** The mock data and the mock server of the composable's test suite. *)
Definition API_BASE_URL : string := "http://localhost:3000".
Definition API_ENDPOINT : string := "/api/execution-items".
Definition FULL_URL : string := API_BASE_URL ++ API_ENDPOINT.

Definition testEnv : ImportMetaEnv :=
  {| VITE_API_BASE_URL := Some API_BASE_URL;
     VITE_API_EXECUTION_ITEMS_ENDPOINT := Some API_ENDPOINT |}.

Definition mockExecutionItems : list ExecutionItem :=
  [ {| moduleName := "Authentication Module"; owner := "John Doe";
       pm := "Jane Smith"; healthStatus := on_track;
       teamWorking := "Squad 1"; okrHierarchy := "O1 > KR1 > Initiative A" |};
    {| moduleName := "Payment Gateway"; owner := "Alice Johnson";
       pm := "Bob Williams"; healthStatus := at_risk;
       teamWorking := "Squad 2"; okrHierarchy := "O2 > KR2 > Initiative B" |};
    {| moduleName := "User Dashboard"; owner := "Charlie Brown";
       pm := "Diana Prince"; healthStatus := off_track;
       teamWorking := "Squad 3"; okrHierarchy := "O3 > KR3 > Initiative C" |} ].

Definition mockSuccessResponse : value :=
  VObj [ ("items", VArr (item_value <$> mockExecutionItems));
         ("total", VNum 3%float) ].

(** [HttpResponse.json(data)] *)
Definition HttpResponse_json (data : value) : settled Response :=
  Fulfilled {| status := 200; statusText := "OK"; body := Fulfilled data |}.

(** [new HttpResponse(null, { status, statusText })]: there is no body, so
    [json()] rejects with a [SyntaxError]. *)
Definition HttpResponse_null (status : N) (statusText : string)
  : settled Response :=
  Fulfilled {| status := status; statusText := statusText;
               body := Rejected (ErrorValue "Unexpected end of JSON input") |}.

(** [HttpResponse.error()]: [fetch] rejects with a [TypeError]. *)
Definition HttpResponse_error : settled Response :=
  Rejected (ErrorValue "Failed to fetch").

(** The server with one handler, for [FULL_URL]; any other request fails. *)
Definition server (handler : settled Response) : world :=
  λ url _, if bool_decide (url = FULL_URL) then handler else HttpResponse_error.

(** ** tests/types.validation.test.ts: the helpers *)

(** [v === 'literal'] *)
Definition strict_equal (v : value) (s : string) : bool :=
  match v with
  | VStr s' => bool_decide (s' = s)
  | _ => false
  end.

Definition isValidHealthStatus (status : string) : bool :=
  bool_decide (status = "on-track")
  || bool_decide (status = "at-risk")
  || bool_decide (status = "off-track").

(** The [switch] on [item.healthStatus]; the [default] branch returns the
    property itself. *)
Definition getHealthStatusColor (item : value) : settled value :=
  h ← get item "healthStatus";
  if strict_equal h "on-track" then Fulfilled (VStr "#0ed183")
  else if strict_equal h "at-risk" then Fulfilled (VStr "#ff514e")
  else if strict_equal h "off-track" then Fulfilled (VStr "#ffab26")
  else get item "healthStatus".

(** ** types/OKRHierarchy.ts *)

Module Objective.
Record t : Type := {
  id : string;
  title : string;
  description : string
}.
End Objective.

Module KeyResult.
Record t : Type := {
  id : string;
  title : string;
  description : string;
  metric : string;
  targetValue : string;
  currentValue : string
}.
End KeyResult.

Module Initiative.
Record t : Type := {
  id : string;
  title : string;
  description : string
}.
End Initiative.

Module Feature.
Record t : Type := {
  id : string;
  title : string;
  description : string
}.
End Feature.

Module SubFeature.
Record t : Type := {
  id : string;
  title : string;
  description : string
}.
End SubFeature.

(** Every level is optional: [None] is a property left out. *)
Record OKRHierarchy : Type := {
  objective : option (list Objective.t);
  keyResults : option (list KeyResult.t);
  initiatives : option (list Initiative.t);
  features : option (list Feature.t);
  subFeatures : option (list SubFeature.t)
}.

(** ** The helpers of the OKRHierarchy validation file *)

(** [typeof v] *)
Definition typeof (v : value) : string :=
  match v with
  | VUndefined => "undefined"
  | VNull => "object"
  | VBool _ => "boolean"
  | VNum _ => "number"
  | VStr _ => "string"
  | VArr _ | VObj _ => "object"
  end.

(** The type guard: a chain of [&&], evaluated left to right. *)
Definition isValidObjective (obj : value) : settled bool :=
  if negb (bool_decide (typeof obj = "object")) then Fulfilled false
  else
    i ← get obj "id";
    if negb (bool_decide (typeof i = "string")) then Fulfilled false
    else
      t ← get obj "title";
      if negb (bool_decide (typeof t = "string")) then Fulfilled false
      else
        d ← get obj "description";
        Fulfilled (bool_decide (typeof d = "string")).

(** Each [if (hierarchy.level)] tests an array or [undefined]; an array, empty
    or not, is truthy. *)
Definition countHierarchyItems (hierarchy : OKRHierarchy) : nat :=
  let count := 0 in
  let count :=
    if objective hierarchy is Some a then count + length a else count in
  let count :=
    if keyResults hierarchy is Some a then count + length a else count in
  let count :=
    if initiatives hierarchy is Some a then count + length a else count in
  let count :=
    if features hierarchy is Some a then count + length a else count in
  let count :=
    if subFeatures hierarchy is Some a then count + length a else count in
  count.

(** [parts.join(sep)] *)
Fixpoint join (sep : string) (parts : list string) : string :=
  match parts with
  | [] => EmptyString
  | [x] => x
  | x :: rest => x ++ sep ++ join sep rest
  end.

Definition getHierarchySummary (hierarchy : OKRHierarchy) : string :=
  let parts : list string := [] in
  let parts :=
    if objective hierarchy is Some a
    then app parts [pretty (length a) ++ " Objective(s)"]
    else parts in
  let parts :=
    if keyResults hierarchy is Some a
    then app parts [pretty (length a) ++ " Key Result(s)"]
    else parts in
  let parts :=
    if initiatives hierarchy is Some a
    then app parts [pretty (length a) ++ " Initiative(s)"]
    else parts in
  let parts :=
    if features hierarchy is Some a
    then app parts [pretty (length a) ++ " Feature(s)"]
    else parts in
  let parts :=
    if subFeatures hierarchy is Some a
    then app parts [pretty (length a) ++ " Sub-Feature(s)"]
    else parts in
  if bool_decide (0 < length parts) then join " > " parts
  else "Empty Hierarchy".

(** * Properties *)

(** ** Health-status utilities *)

(** C10: [classifyStatus] is the identity on the health status of every work
    item: applied to the run-time object of a typed item it completes
    normally with the item's own [healthStatus] string, whichever of the
    three statuses that is; on any object it returns the object's own
    [healthStatus] property and nothing else. *)
Theorem classifyStatus_identity (it : ExecutionItem) :
  classifyStatus (item_value it) = Fulfilled (VStr (literal (healthStatus it)))
  ∧ (∀ fs, classifyStatus (VObj fs)
           = Fulfilled (default VUndefined (field "healthStatus" fs))).
Proof. split; reflexivity. Qed.

(** C7: [getStatusConfig] returns, for each of the three statuses, the record
    of the static table, with these exact labels, colours and severities; the
    table has three entries, distinct statuses get distinct records, and no
    status maps to an absent record or to one with an empty field. *)
Theorem getStatusConfig_table :
  getStatusConfig on_track
  = Some {| label := "On Track"; color := "#0ed183";
            backgroundColor := "#eefbf2"; severity := success |}
  ∧ getStatusConfig at_risk
    = Some {| label := "At Risk"; color := "#ff514e";
              backgroundColor := "#ffefed"; severity := error_severity |}
  ∧ getStatusConfig off_track
    = Some {| label := "Off Track"; color := "#ffab26";
              backgroundColor := "#fff7ed"; severity := warning |}
  ∧ size HEALTH_STATUS_CONFIG = 3
  ∧ (∀ a b, getStatusConfig a = getStatusConfig b → a = b)
  ∧ (∀ status, ∃ c,
       getStatusConfig status = Some c
       ∧ label c ≠ EmptyString ∧ color c ≠ EmptyString
       ∧ backgroundColor c ≠ EmptyString).
Proof.
  split_and!; try by vm_compute.
  - intros [] []; vm_compute; congruence.
  - intros []; eexists; (split; [by vm_compute|done]).
Qed.

(** C8: the badge utilities carry a table of their own.  [getStatusLabel]
    gives [On track], [At Risks], [Off Track] for the three statuses and
    [Unknown] for [undefined] and [null]; [getStatusColor] gives the three
    colour pairs and the grey pair for [undefined] and [null];
    [getStatusClassName] gives [health-status-unknown] for [undefined] and
    [null].  Two of the labels differ from those of [HEALTH_STATUS_CONFIG]. *)
Theorem badge_table :
  getStatusLabel (Defined "on-track") = "On track"
  ∧ getStatusLabel (Defined "at-risk") = "At Risks"
  ∧ getStatusLabel (Defined "off-track") = "Off Track"
  ∧ getStatusLabel Undefined = "Unknown"
  ∧ getStatusLabel Null = "Unknown"
  ∧ getStatusColor (Defined "on-track")
    = {| text := "#0ed183"; background := "#eefbf2" |}
  ∧ getStatusColor (Defined "at-risk")
    = {| text := "#ff514e"; background := "#ffefed" |}
  ∧ getStatusColor (Defined "off-track")
    = {| text := "#ffab26"; background := "#fff7ed" |}
  ∧ getStatusColor Undefined = {| text := "#656b75"; background := "#f3f3f3" |}
  ∧ getStatusColor Null = {| text := "#656b75"; background := "#f3f3f3" |}
  ∧ getStatusClassName Undefined = "health-status-unknown"
  ∧ getStatusClassName Null = "health-status-unknown"
  ∧ (∀ status,
       getStatusLabel (Defined (literal status))
       = match status with
         | on_track => "On track"
         | at_risk => "At Risks"
         | off_track => "Off Track"
         end
       ∧ Some (text (getStatusColor (Defined (literal status))))
         = color <$> getStatusConfig status
       ∧ Some (background (getStatusColor (Defined (literal status))))
         = backgroundColor <$> getStatusConfig status)
  ∧ Some (getStatusLabel (Defined "on-track"))
    ≠ label <$> getStatusConfig on_track
  ∧ Some (getStatusLabel (Defined "at-risk"))
    ≠ label <$> getStatusConfig at_risk.
Proof.
  split_and!; try reflexivity.
  - intros []; split_and!; reflexivity.
  - vm_compute. discriminate.
  - vm_compute. discriminate.
Qed.

(** C9: [isValidStatus] is true exactly on the three literal strings; it is
    false on every other string, such as [At Risk], [ON-TRACK] and the empty
    string. *)
Theorem isValidStatus_exact (v : string) :
  (isValidStatus v = true
   ↔ v = "on-track" ∨ v = "at-risk" ∨ v = "off-track")
  ∧ (isValidStatus v = false
     ↔ v ≠ "on-track" ∧ v ≠ "at-risk" ∧ v ≠ "off-track")
  ∧ isValidStatus "At Risk" = false
  ∧ isValidStatus "ON-TRACK" = false
  ∧ isValidStatus EmptyString = false.
Proof.
  unfold isValidStatus, includes. split_and!; try reflexivity.
  - rewrite bool_decide_eq_true, !elem_of_cons, elem_of_nil. tauto.
  - rewrite bool_decide_eq_false, !elem_of_cons, elem_of_nil. tauto.
Qed.

(** ** Running asynchronous programs *)

Lemma run_bind_step {A B} (w : world) (f : A → prog B) (st : step A) :
  run w (bind_step f st) =
  match run w st with
  | (s, Fulfilled a) => run w (f a s)
  | (s, Rejected t) => (s, Rejected t)
  end.
Proof.
  induction st as [s [a|t]|X s op k IH]; simpl; [done..|apply IH].
Qed.

Section Run.
Context {A B : Type} (w : world).

Lemma run_bind (m : prog A) (f : A → prog B) (s : state) :
  run w ((m ≫= f) s) =
  match run w (m s) with
  | (s', Fulfilled a) => run w (f a s')
  | (s', Rejected t) => (s', Rejected t)
  end.
Proof. apply run_bind_step. Qed.

Lemma run_try_catch (body : prog A) (handler : thrown → prog A) s :
  run w (try_catch body handler s) =
  match run w (body s) with
  | (s', Fulfilled a) => (s', Fulfilled a)
  | (s', Rejected t) => run w (handler t s')
  end.
Proof.
  unfold try_catch.
  induction (body s) as [s' [a|t]|X s' op k IH]; simpl; [done..|apply IH].
Qed.

Lemma run_try_finally (body : prog A) (cleanup : prog unit) s :
  run w (try_finally body cleanup s) =
  match run w (body s) with
  | (s', c) =>
      match run w (cleanup s') with
      | (s'', Fulfilled _) => (s'', c)
      | (s'', Rejected t) => (s'', Rejected t)
      end
  end.
Proof.
  unfold try_finally.
  induction (body s) as [s' c|X s' op k IH]; simpl; [|apply IH].
  rewrite run_bind_step. by destruct (run w (cleanup s')) as [? [[]|?]].
Qed.

Lemma run_await {X} (op : await_op X) s :
  run w (await op s) = (s, answer w op).
Proof. done. Qed.

Lemma run_lift (c : settled A) s : run w (lift c s) = (s, c).
Proof. done. Qed.

Lemma run_throw (t : thrown) s : run w (throw (A:=A) t s) = (s, Rejected t).
Proof. done. Qed.

Lemma run_ret (a : A) s : run w (mret (M:=prog) a s) = (s, Fulfilled a).
Proof. done. Qed.
End Run.

(** The last observed state is the state the run ends in. *)
Lemma observed_last {A} (w : world) (st : step A) :
  last (observed w st) = Some (run w st).1.
Proof.
  induction st as [s c|X s op k IH]; [done|].
  simpl. specialize (IH (answer w op) s).
  destruct (observed w (k (answer w op) s)); [done|]. exact IH.
Qed.

(** ** Configuration *)

Lemma or_else_nonempty (x : option string) (fallback : string) :
  fallback ≠ EmptyString → or_else x fallback ≠ EmptyString.
Proof.
  intros Hf. unfold or_else. destruct x as [s|]; [|done].
  case_bool_decide; done.
Qed.

Lemma string_app_assoc (a b c : string) : (a ++ b) ++ c = a ++ (b ++ c).
Proof.
  induction a as [|ch a IH]; [done|].
  change (String ch ((a ++ b) ++ c) = String ch (a ++ (b ++ c))).
  by rewrite IH.
Qed.

Lemma string_app_empty_r (a : string) : a ++ EmptyString = a.
Proof.
  induction a as [|ch a IH]; [done|].
  change (String ch (a ++ EmptyString) = String ch a). by rewrite IH.
Qed.

Lemma contains_suffix (a b : string) : contains (a ++ b) b.
Proof. exists a, EmptyString. by rewrite string_app_empty_r. Qed.

Lemma contains_app_r (a b needle : string) :
  contains b needle → contains (a ++ b) needle.
Proof.
  intros (before & after & ->). exists (a ++ before), after.
  by rewrite string_app_assoc.
Qed.

Lemma contains_prefix (a b : string) : contains (a ++ b) a.
Proof. by exists EmptyString, b. Qed.

Lemma app_nonempty_r (a b : string) : b ≠ EmptyString → a ++ b ≠ EmptyString.
Proof. destruct a; [done|]. intros _. discriminate. Qed.

Lemma endpoint_nonempty (env : ImportMetaEnv) :
  endpoint (getApiConfig env) ≠ EmptyString.
Proof. simpl. by apply or_else_nonempty. Qed.

Lemma fullUrl_nonempty (env : ImportMetaEnv) :
  fullUrl (getApiConfig env) ≠ EmptyString.
Proof. simpl. apply app_nonempty_r, or_else_nonempty. done. Qed.

Lemma fullUrl_truthy (env : ImportMetaEnv) :
  truthy (VStr (fullUrl (getApiConfig env))) = true.
Proof.
  unfold truthy. rewrite bool_decide_eq_false_2; [done|].
  apply fullUrl_nonempty.
Qed.

(** ** One run of fetchItems *)

Lemma run_fetchItems_try (env : ImportMetaEnv) (w : world) (s : state) :
  run w (fetchItems_try env s) =
  match attempt env w with
  | Fulfilled xs =>
      ({| items := xs; loading := loading s; error := error s |}, Fulfilled tt)
  | Rejected t => (s, Rejected t)
  end.
Proof.
  unfold fetchItems_try, attempt.
  rewrite run_bind, fullUrl_truthy. cbn [negb].
  rewrite run_ret, run_bind, run_await. cbn [answer].
  destruct (w _ _) as [response|t]; [|done]. cbn [mbind settled_bind].
  rewrite run_bind.
  destruct (ok response); cbn [negb]; [|by rewrite run_throw].
  rewrite run_ret, run_bind, run_await. cbn [answer].
  destruct (body response) as [data|t]; [|done]. cbn [mbind settled_bind].
  rewrite run_bind, run_lift.
  destruct (invalidItems data) as [[]|t]; [| |done].
  - by rewrite run_bind, run_throw.
  - rewrite run_bind, run_ret, run_bind, run_lift.
    by destruct (mapItems normalizeItem data).
Qed.

Lemma items_array (data : value) (its : list value) :
  get data "items" = Fulfilled (VArr its) →
  invalidItems data = Fulfilled false
  ∧ ∀ f, mapItems f data = array_map f its.
Proof.
  intros Hget. unfold invalidItems, mapItems. rewrite Hget. done.
Qed.

Lemma mapItems_fulfilled f (data : value) (xs : list value) :
  mapItems f data = Fulfilled xs →
  ∃ its, get data "items" = Fulfilled (VArr its)
         ∧ array_map f its = Fulfilled xs.
Proof.
  unfold mapItems. destruct (get data "items") as [v|t]; [|done].
  destruct v; try done. eauto.
Qed.

Lemma attempt_fulfilled (env : ImportMetaEnv) (w : world) (xs : list value) :
  attempt env w = Fulfilled xs ↔ succeeds env w xs.
Proof.
  unfold attempt, succeeds. rewrite fullUrl_truthy. cbn [negb].
  split.
  - destruct (w _ _) as [response|t] eqn:Hw; [|done].
    cbn [mbind settled_bind].
    destruct (ok response) eqn:Hok; cbn [negb]; [|done].
    destruct (body response) as [data|t] eqn:Hbody; [|done].
    cbn [mbind settled_bind].
    destruct (invalidItems data) as [[]|t]; [done| |done].
    intros (its & Hget & Hmap)%mapItems_fulfilled.
    by exists response, data, its.
  - intros (response & data & its & Hw & Hok & Hbody & Hget & Hmap).
    rewrite Hw. cbn [mbind settled_bind]. rewrite Hok, Hbody.
    cbn [mbind settled_bind negb].
    destruct (items_array _ _ Hget) as [-> Hm]. by rewrite Hm.
Qed.

Lemma attempt_rejected (env : ImportMetaEnv) (w : world) (t : thrown) :
  attempt env w = Rejected t ↔ failure env w t.
Proof.
  unfold attempt. rewrite fullUrl_truthy. cbn [negb].
  split.
  - destruct (w _ _) as [response|t'] eqn:Hw; cbn [mbind settled_bind];
      [|intros [= <-]; by apply transport_failure].
    destruct (ok response) eqn:Hok; cbn [negb];
      [|intros [= <-]; by apply http_failure].
    destruct (body response) as [data|t'] eqn:Hbody; cbn [mbind settled_bind];
      [|intros [= <-]; by eapply parse_failure].
    destruct (invalidItems data) as [[]|t'] eqn:Hinv.
    + intros [= <-]. by eapply validation_failure.
    + intros Hmap. by eapply normalization_failure.
    + intros [= <-]. by eapply validation_throws.
  - intros Hfail.
    destruct Hfail as [Hurl|t Hw|r Hw Hok|r t Hw Hok Hbody
      |r data Hw Hok Hbody Hinv|r data t Hw Hok Hbody Hinv
      |r data t Hw Hok Hbody Hinv Hmap].
    + by destruct (fullUrl_nonempty env).
    + by rewrite Hw.
    + rewrite Hw. cbn [mbind settled_bind]. by rewrite Hok.
    + rewrite Hw. cbn [mbind settled_bind]. rewrite Hok, Hbody. done.
    + rewrite Hw. cbn [mbind settled_bind]. rewrite Hok, Hbody.
      cbn [mbind settled_bind negb]. by rewrite Hinv.
    + rewrite Hw. cbn [mbind settled_bind]. rewrite Hok, Hbody.
      cbn [mbind settled_bind negb]. by rewrite Hinv.
    + rewrite Hw. cbn [mbind settled_bind]. rewrite Hok, Hbody.
      cbn [mbind settled_bind negb]. by rewrite Hinv.
Qed.

(** ** Objects and normalization *)

Lemma field_define (k k' : string) (v : value) (fs : list (string * value)) :
  field k (define k' v fs) = if decide (k' = k) then Some v else field k fs.
Proof.
  induction fs as [|[k0 v0] fs IH]; simpl.
  - by destruct (decide (k' = k)).
  - destruct (decide (k0 = k')) as [->|Hne]; simpl.
    + by destruct (decide (k' = k)).
    + destruct (decide (k0 = k)) as [->|Hne'].
      * by rewrite decide_False by done.
      * exact IH.
Qed.

Lemma define_fresh (k : string) (v : value) (fs : list (string * value)) :
  k ∉ fs.*1 → define k v fs = (fs ++ [(k, v)])%list.
Proof.
  induction fs as [|[k0 v0] fs IH]; simpl; [done|].
  intros [Hne Hnotin]%not_elem_of_cons.
  rewrite decide_False by done. by rewrite IH.
Qed.

Lemma spread_distinct (fs acc : list (string * value)) :
  NoDup ((acc ++ fs)%list).*1 →
  foldl (λ acc kv, define kv.1 kv.2 acc) acc fs = (acc ++ fs)%list.
Proof.
  revert acc. induction fs as [|[k v] fs IH]; intros acc Hnd; simpl.
  - by rewrite app_nil_r.
  - rewrite define_fresh.
    + rewrite IH; rewrite <- app_assoc; done.
    + rewrite fmap_app in Hnd. apply NoDup_app in Hnd as (_ & Hdisj & _).
      intros Hin. apply (Hdisj k Hin). simpl. left.
Qed.

Lemma spread_json_object (fs : list (string * value)) :
  NoDup fs.*1 → spread (VObj fs) [] = fs.
Proof. intros Hnd. unfold spread. simpl. by rewrite spread_distinct. Qed.

Lemma normalizeItem_object (fs : list (string * value)) :
  NoDup fs.*1 →
  normalizeItem (VObj fs) =
  Fulfilled (VObj (define "healthStatus"
                          (default VUndefined (field "healthStatus" fs)) fs)).
Proof. intros Hnd. unfold normalizeItem. by rewrite spread_json_object. Qed.

(** A typed work item comes out of the normalization unchanged. *)
Lemma normalizeItem_item_value (it : ExecutionItem) :
  normalizeItem (item_value it) = Fulfilled (item_value it).
Proof. reflexivity. Qed.

Lemma array_map_Forall2 f (xs ys : list value) :
  array_map f xs = Fulfilled ys ↔ Forall2 (λ x y, f x = Fulfilled y) xs ys.
Proof.
  revert ys. induction xs as [|x xs IH]; intros ys; simpl.
  - split; [intros [= <-]; constructor|by intros ->%Forall2_nil_inv_l].
  - split.
    + destruct (f x) as [y|t] eqn:Hfx; [|done]. cbn [mbind settled_bind].
      destruct (array_map f xs) as [ys'|t]; [|done]. cbn [mbind settled_bind].
      intros [= <-]. constructor; [done|]. by apply IH.
    + intros (y & ys' & Hfx & Hrest & ->)%Forall2_cons_inv_l.
      rewrite Hfx. cbn [mbind settled_bind].
      apply IH in Hrest. by rewrite Hrest.
Qed.

Lemma array_map_total f (xs : list value) :
  Forall (λ x, ∃ y, f x = Fulfilled y) xs →
  ∃ ys, array_map f xs = Fulfilled ys.
Proof.
  induction 1 as [|x xs [y Hfx] _ [ys IH]]; simpl; [by eexists|].
  rewrite Hfx, IH. by eexists.
Qed.

(** Every run either fails with some thrown value or succeeds. *)
Lemma outcome_exhaustive (env : ImportMetaEnv) (w : world) :
  (∃ t, failure env w t) ∨ (∃ xs, succeeds env w xs).
Proof.
  destruct (attempt env w) as [xs|t] eqn:Hattempt.
  - right. exists xs. by apply attempt_fulfilled.
  - left. exists t. by apply attempt_rejected.
Qed.

(** What the code itself throws besides its three [Error]s is a [TypeError]
    of the engine. *)
Lemma get_rejected (base : value) (k : string) (t : thrown) :
  get base k = Rejected t → t = TypeError (NullishRead base k).
Proof. destruct base; simpl; congruence. Qed.

Lemma invalidItems_rejected (data : value) (t : thrown) :
  invalidItems data = Rejected t → ∃ e, t = TypeError e.
Proof.
  unfold invalidItems. destruct (get data "items") as [v|t'] eqn:Hget.
  - cbn [mbind settled_bind]. by destruct (negb (truthy v)).
  - cbn [mbind settled_bind]. intros [= <-].
    apply get_rejected in Hget. eauto.
Qed.

Lemma normalizeItem_rejected (item : value) (t : thrown) :
  normalizeItem item = Rejected t → ∃ e, t = TypeError e.
Proof.
  unfold normalizeItem, classifyStatus.
  destruct (get item "healthStatus") as [h|t'] eqn:Hget; [done|].
  cbn [mbind settled_bind]. intros [= <-]. apply get_rejected in Hget. eauto.
Qed.

Lemma array_map_rejected f (xs : list value) (t : thrown) :
  array_map f xs = Rejected t → ∃ x, x ∈ xs ∧ f x = Rejected t.
Proof.
  induction xs as [|x xs IH]; simpl; [done|].
  destruct (f x) as [y|t'] eqn:Hfx; cbn [mbind settled_bind].
  - destruct (array_map f xs) as [ys|t']; [done|]. cbn [mbind settled_bind].
    intros [= <-]. destruct IH as (x' & Hin & Hx'); [done|].
    exists x'. split; [by right|done].
  - intros [= <-]. exists x. split; [by left|done].
Qed.

Lemma mapItems_rejected (data : value) (t : thrown) :
  mapItems normalizeItem data = Rejected t → ∃ e, t = TypeError e.
Proof.
  unfold mapItems. destruct (get data "items") as [v|t'] eqn:Hget.
  - cbn [mbind settled_bind].
    destruct v; try (intros [= <-]; eauto; fail).
    intros (x & _ & Hx)%array_map_rejected. by eapply normalizeItem_rejected.
  - cbn [mbind settled_bind]. intros [= <-].
    apply get_rejected in Hget. eauto.
Qed.

(** A failure that carries the text of the configuration error was rejected
    with it by the network or by [response.json()]; the code did not throw
    it. *)
Lemma configuration_message_is_foreign (env : ImportMetaEnv) (w : world) :
  failure env w (ErrorValue configurationMessage) →
  w (fullUrl (getApiConfig env)) requestInit
  = Rejected (ErrorValue configurationMessage)
  ∨ ∃ response,
      w (fullUrl (getApiConfig env)) requestInit = Fulfilled response
      ∧ body response = Rejected (ErrorValue configurationMessage).
Proof.
  intros Hfail. remember (ErrorValue configurationMessage) as t eqn:Ht.
  destruct Hfail as [Hurl|t Hw|r Hw Hok|r t Hw Hok Hbody
    |r data Hw Hok Hbody Hinv|r data t Hw Hok Hbody Hinv
    |r data t Hw Hok Hbody Hinv Hmap].
  - by destruct (fullUrl_nonempty env).
  - by left.
  - injection Ht as Ht. discriminate Ht.
  - right. by exists r.
  - injection Ht as Ht. discriminate Ht.
  - apply invalidItems_rejected in Hinv as [e ->]. discriminate Ht.
  - apply mapItems_rejected in Hmap as [e ->]. discriminate Ht.
Qed.

Section Fetcher.
Context {engine : Engine}.

Lemma run_fetchItems (env : ImportMetaEnv) (w : world) (s : state) :
  run w (fetchItems env s) =
  match attempt env w with
  | Fulfilled xs =>
      ({| items := xs; loading := false; error := None |}, Fulfilled tt)
  | Rejected t =>
      ({| items := []; loading := false; error := Some (errorMessage t) |},
       Fulfilled tt)
  end.
Proof.
  unfold fetchItems.
  rewrite run_bind. cbn [set_loading run].
  rewrite run_bind. cbn [set_error run items loading error].
  rewrite run_try_finally, run_try_catch, run_fetchItems_try.
  destruct (attempt env w) as [xs|t]; [done|].
  unfold fetchItems_catch. by rewrite run_bind.
Qed.

Lemma run_refetch (env : ImportMetaEnv) (w : world) (s : state) :
  run w (refetch env s) = run w (fetchItems env s).
Proof.
  unfold refetch. rewrite run_bind.
  destruct (run w (fetchItems env s)) as [s' [[]|t]] eqn:Hrun; [done|].
  rewrite run_fetchItems in Hrun. by destruct (attempt env w).
Qed.

(** ** The fetcher's contract *)

(** C1: the refs start with no items, and after every completed run of
    [fetchItems] (and hence of [refetch]), from any earlier state, [items] is
    either the complete normalized array of this run's successful fetch, with
    no error, or empty, with an error; [array_map] yields the whole array or
    nothing, so no partly filled array is ever assigned.  Hence after any
    history of completed loads [items] is empty or is the normalized array
    of the most recent load, which succeeded. *)
Theorem items_complete_or_empty :
  items useExecutionItems = []
  ∧ (∀ env w s, settled_state env w (run w (fetchItems env s)).1)
  ∧ (∀ env w s, settled_state env w (run w (refetch env s)).1)
  ∧ (∀ history,
       items (loads history) = []
       ∨ ∃ env w, last history = Some (env, w)
                  ∧ succeeds env w (items (loads history))).
Proof.
  assert (∀ env w s, settled_state env w (run w (fetchItems env s)).1)
    as Hrun.
  { intros env w s. rewrite run_fetchItems.
    destruct (attempt env w) as [xs|t] eqn:Hattempt; split; simpl; try done.
    - left. split; [done|]. by apply attempt_fulfilled.
    - by right. }
  split_and!; [done|done| |].
  - intros env w s. rewrite run_refetch. apply Hrun.
  - intros history. unfold loads.
    destruct history as [|h history _] using rev_ind; [by left|].
    rewrite foldl_snoc, last_snoc. destruct h as [env w]. simpl.
    destruct (Hrun env w (foldl (λ s h, (run h.2 (fetchItems h.1 s)).1)
                                useExecutionItems history))
      as [_ [[_ Hok]|[_ Hempty]]].
    + right. by exists env, w.
    + by left.
Qed.

(** C2: for a 2xx response whose parsed body has an [items] array of [N]
    objects, the run completes normally with [loading] false and no error,
    [items] has length [N], and its element at each index is the response
    element at that index with the [healthStatus] property set to what
    [classifyStatus] returns for that element, every other property read
    giving what it gives on the response element. *)
Theorem fetchItems_well_formed (env : ImportMetaEnv) (w : world) (s : state)
    (response : Response) (data : value) (its : list value) :
  w (fullUrl (getApiConfig env)) requestInit = Fulfilled response →
  (200 ≤ status response ≤ 299)%N →
  body response = Fulfilled data →
  get data "items" = Fulfilled (VArr its) →
  Forall json_object its →
  ∃ xs,
    run w (fetchItems env s)
    = ({| items := xs; loading := false; error := None |}, Fulfilled tt)
    ∧ length xs = length its
    ∧ ∀ i item, its !! i = Some item →
        ∃ fs h,
          item = VObj fs
          ∧ classifyStatus item = Fulfilled h
          ∧ xs !! i = Some (VObj (define "healthStatus" h fs))
          ∧ get (VObj (define "healthStatus" h fs)) "healthStatus"
            = Fulfilled h
          ∧ ∀ k, k ≠ "healthStatus" →
              get (VObj (define "healthStatus" h fs)) k = get item k.
Proof.
  intros Hw Hstatus Hbody Hget Hobjs.
  assert (Forall (λ x, ∃ y, normalizeItem x = Fulfilled y) its) as Htotal.
  { eapply Forall_impl; [exact Hobjs|].
    intros x (fs & -> & Hnd). rewrite normalizeItem_object by done. eauto. }
  destruct (array_map_total _ _ Htotal) as [xs Hmap].
  exists xs. rewrite run_fetchItems.
  assert (attempt env w = Fulfilled xs) as ->.
  { apply attempt_fulfilled. exists response, data, its.
    unfold ok. by rewrite bool_decide_eq_true_2. }
  split; [done|]. apply array_map_Forall2 in Hmap.
  split; [symmetry; by eapply Forall2_length|].
  intros i item Hi.
  destruct (Forall2_lookup_l _ _ _ _ _ Hmap Hi) as (out & Hout & Hnorm).
  rewrite Forall_lookup in Hobjs.
  destruct (Hobjs i item Hi) as (fs & -> & Hnd).
  rewrite normalizeItem_object in Hnorm by done. injection Hnorm as <-.
  exists fs, (default VUndefined (field "healthStatus" fs)).
  split_and!; [done|done|done| |].
  - simpl. rewrite field_define. by rewrite decide_True.
  - intros k Hk. simpl. rewrite field_define. by rewrite decide_False.
Qed.

(** C3: whatever step of a run fails (configuration, transport, HTTP status,
    parsing, validation, normalization) and whatever it throws, the promise
    of [fetchItems], and that of [refetch], is fulfilled, not rejected;
    [error] holds the message of what was thrown (the message of an [Error],
    the fixed text for a value that is no [Error]), [items] is empty whatever
    it held before, and [loading] is false. *)
Theorem fetchItems_failure_is_captured (env : ImportMetaEnv) (w : world)
    (s : state) (t : thrown) :
  failure env w t →
  run w (fetchItems env s)
  = ({| items := []; loading := false; error := Some (errorMessage t) |},
     Fulfilled tt)
  ∧ run w (refetch env s)
    = ({| items := []; loading := false; error := Some (errorMessage t) |},
       Fulfilled tt)
  ∧ (∀ m, t = ErrorValue m → errorMessage t = m).
Proof.
  intros Hfail%attempt_rejected.
  rewrite run_refetch, run_fetchItems, Hfail.
  split_and!; [done|done|]. by intros m ->.
Qed.

(** C4: the endpoint component falls back to [/api/execution-items] when its
    variable is unset or empty, so for every configuration the resolved URL
    is a non-empty string; the guard of the configuration error is false,
    and every run of [fetchItems] gets as far as the [fetch] call, where it
    suspends: the configuration error is never thrown.  A run can only end
    with that error's text if the network itself rejects with it. *)
Theorem configuration_error_unreachable (env : ImportMetaEnv) :
  (VITE_API_EXECUTION_ITEMS_ENDPOINT env = None
   ∨ VITE_API_EXECUTION_ITEMS_ENDPOINT env = Some EmptyString →
   endpoint (getApiConfig env) = "/api/execution-items")
  ∧ endpoint (getApiConfig env) ≠ EmptyString
  ∧ fullUrl (getApiConfig env) ≠ EmptyString
  ∧ negb (truthy (VStr (fullUrl (getApiConfig env)))) = false
  ∧ (∀ s, ∃ k,
       fetchItems env s
       = Suspended {| items := items s; loading := true; error := None |}
                   (fetch (fullUrl (getApiConfig env)) requestInit) k)
  ∧ (∀ w, failure env w (ErrorValue configurationMessage) →
       w (fullUrl (getApiConfig env)) requestInit
       = Rejected (ErrorValue configurationMessage)
       ∨ ∃ response,
           w (fullUrl (getApiConfig env)) requestInit = Fulfilled response
           ∧ body response = Rejected (ErrorValue configurationMessage)).
Proof.
  split_and!.
  - by intros [Hunset|Hempty]; simpl; [rewrite Hunset|rewrite Hempty].
  - apply endpoint_nonempty.
  - apply fullUrl_nonempty.
  - by rewrite fullUrl_truthy.
  - intros s. unfold fetchItems, fetchItems_try.
    cbn [mbind prog_bind bind_step set_loading set_error items loading error
         try_finally try_catch].
    rewrite fullUrl_truthy. cbn. by eexists.
  - apply configuration_message_is_foreign.
Qed.

(** C6: for every response whose status is outside 200..299 the run ends as
    a failure: [error] is the message built from the status code in decimal
    and the status text, both of which occur in it, [items] is empty and
    [loading] is false. *)
Theorem fetchItems_http_status_error (env : ImportMetaEnv) (w : world)
    (s : state) (response : Response) :
  w (fullUrl (getApiConfig env)) requestInit = Fulfilled response →
  ¬ (200 ≤ status response ≤ 299)%N →
  run w (fetchItems env s)
  = ({| items := []; loading := false;
        error := Some (httpMessage response) |}, Fulfilled tt)
  ∧ contains (httpMessage response) (pretty (status response))
  ∧ contains (httpMessage response) (statusText response).
Proof.
  intros Hw Hstatus. split_and!.
  - rewrite run_fetchItems.
    assert (attempt env w = Rejected (ErrorValue (httpMessage response)))
      as ->; [|done].
    apply attempt_rejected, http_failure; [done|].
    unfold ok. by rewrite bool_decide_eq_false_2.
  - apply contains_app_r, contains_prefix.
  - unfold httpMessage. do 2 apply contains_app_r. apply contains_suffix.
Qed.

(** ** Further properties of a run *)

(** X11: the validation proper: whenever [data.items] can be read (the body
    is not [null]) and is not an array, the run ends with the validation
    message, which names the [items] field, and with no items. *)
Lemma fetchItems_invalid_items (env : ImportMetaEnv) (w : world) (s : state)
    (response : Response) (data v : value) :
  w (fullUrl (getApiConfig env)) requestInit = Fulfilled response →
  ok response = true →
  body response = Fulfilled data →
  get data "items" = Fulfilled v →
  isArray v = false →
  run w (fetchItems env s)
  = ({| items := []; loading := false; error := Some validationMessage |},
     Fulfilled tt)
  ∧ contains validationMessage "items".
Proof.
  intros Hw Hok Hbody Hget Harr. split.
  - rewrite run_fetchItems.
    assert (attempt env w = Rejected (ErrorValue validationMessage)) as ->;
      [|done].
    apply attempt_rejected. eapply validation_failure; [done..|].
    unfold invalidItems. rewrite Hget. cbn [mbind settled_bind].
    destruct (truthy v); cbn [negb]; [|done].
    cbn [mbind settled_bind]. by rewrite Harr.
  - by exists ("Invalid API response: missing or invalid " ++ dquote),
              (dquote ++ " array").
Qed.

(** X12: a response that lists typed work items leaves exactly those items,
    each object as it was sent, in the order sent. *)
Lemma fetchItems_typed_items (env : ImportMetaEnv) (w : world) (s : state)
    (response : Response) (data : value) (l : list ExecutionItem) :
  w (fullUrl (getApiConfig env)) requestInit = Fulfilled response →
  ok response = true →
  body response = Fulfilled data →
  get data "items" = Fulfilled (VArr (item_value <$> l)) →
  run w (fetchItems env s)
  = ({| items := item_value <$> l; loading := false; error := None |},
     Fulfilled tt).
Proof.
  intros Hw Hok Hbody Hget. rewrite run_fetchItems.
  assert (attempt env w = Fulfilled (item_value <$> l)) as ->; [|done].
  apply attempt_fulfilled. exists response, data, (item_value <$> l).
  split_and!; [done..|]. apply array_map_Forall2.
  apply Forall2_fmap, Forall_Forall2_diag, Forall_forall.
  intros it _. apply normalizeItem_item_value.
Qed.

(** X13: the outcome of a run does not depend on what the refs held before:
    consecutive loads against an unchanged backend leave the same state. *)
Lemma fetchItems_forgets (env : ImportMetaEnv) (w : world) (s1 s2 : state) :
  run w (fetchItems env s1) = run w (fetchItems env s2)
  ∧ run w (fetchItems env (run w (fetchItems env s1)).1)
    = run w (fetchItems env s1).
Proof. by rewrite !run_fetchItems. Qed.

(** X14: while a run is suspended, at [fetch] and at [response.json()],
    observers see the old items with [loading] set and [error] cleared; the
    items are replaced in the one step that ends the run. *)
Lemma observed_fetchItems (env : ImportMetaEnv) (w : world) (s : state) :
  let pending := {| items := items s; loading := true; error := None |} in
  let final := (run w (fetchItems env s)).1 in
  observed w (fetchItems env s) = [pending; final]
  ∨ observed w (fetchItems env s) = [pending; pending; final].
Proof.
  intros pending final. subst final pending. rewrite run_fetchItems.
  unfold attempt, fetchItems, fetchItems_try, fetchItems_catch.
  rewrite fullUrl_truthy.
  unfold mbind, prog_bind, settled_bind, mret, prog_ret, try_finally,
    try_catch, await, lift, throw, set_loading, set_error, set_items.
  cbn [negb bind_step catch_step finally_step observed answer
       items loading error].
  destruct (w _ _) as [response|t]; [|by left].
  destruct (ok response); cbn [negb bind_step catch_step finally_step
    observed answer items loading error]; [|by left].
  right. destruct (body response) as [data|t]; [|done].
  destruct (invalidItems data) as [[]|t]; [done| |done].
  cbn [bind_step catch_step finally_step].
  by destruct (mapItems normalizeItem data).
Qed.

End Fetcher.

(** The test suite's expectations for the mocked 404 response. *)
Lemma fetchItems_http_status_error_witness :
  run (server (HttpResponse_null 404 "Not Found"))
      (fetchItems (engine:=v8) testEnv useExecutionItems)
  = ({| items := []; loading := false;
        error := Some "Failed to fetch execution items: 404 Not Found" |},
     Fulfilled tt)
  ∧ contains "Failed to fetch execution items: 404 Not Found" "404"
  ∧ contains "Failed to fetch execution items: 404 Not Found" "Not Found".
Proof.
  apply (fetchItems_http_status_error (engine:=v8) testEnv
           (server (HttpResponse_null 404 "Not Found")) useExecutionItems
           {| status := 404; statusText := "Not Found";
              body := Rejected (ErrorValue "Unexpected end of JSON input") |}).
  - reflexivity.
  - simpl. lia.
Defined.

Lemma item_value_json_object (it : ExecutionItem) : json_object (item_value it).
Proof.
  eexists. split; [reflexivity|]. simpl.
  apply (bool_decide_unpack _). by vm_compute.
Qed.

(** The test suite's successful fetch: the three mock items come back as
    they were sent. *)
Lemma fetchItems_well_formed_witness :
  ∃ xs,
    run (server (HttpResponse_json mockSuccessResponse))
        (fetchItems (engine:=v8) testEnv useExecutionItems)
    = ({| items := xs; loading := false; error := None |}, Fulfilled tt)
    ∧ length xs = 3
    ∧ ∀ i item, (item_value <$> mockExecutionItems) !! i = Some item →
        ∃ fs h,
          item = VObj fs
          ∧ classifyStatus item = Fulfilled h
          ∧ xs !! i = Some (VObj (define "healthStatus" h fs))
          ∧ get (VObj (define "healthStatus" h fs)) "healthStatus"
            = Fulfilled h
          ∧ ∀ k, k ≠ "healthStatus" →
              get (VObj (define "healthStatus" h fs)) k = get item k.
Proof.
  change 3 with (length (item_value <$> mockExecutionItems)).
  apply (fetchItems_well_formed (engine:=v8) testEnv
           (server (HttpResponse_json mockSuccessResponse)) useExecutionItems
           {| status := 200; statusText := "OK";
              body := Fulfilled mockSuccessResponse |}
           mockSuccessResponse (item_value <$> mockExecutionItems)).
  - reflexivity.
  - simpl. lia.
  - reflexivity.
  - reflexivity.
  - apply Forall_fmap, Forall_forall. intros it _.
    apply item_value_json_object.
Defined.

(** The test suite's failed refetch: a network error after a successful load
    clears the items. *)
Lemma fetchItems_failure_is_captured_witness :
  run (server HttpResponse_error)
      (fetchItems (engine:=v8) testEnv
         {| items := item_value <$> mockExecutionItems; loading := false;
            error := None |})
  = ({| items := []; loading := false; error := Some "Failed to fetch" |},
     Fulfilled tt)
  ∧ run (server HttpResponse_error)
        (refetch (engine:=v8) testEnv
           {| items := item_value <$> mockExecutionItems; loading := false;
              error := None |})
    = ({| items := []; loading := false; error := Some "Failed to fetch" |},
       Fulfilled tt)
  ∧ (∀ m, ErrorValue "Failed to fetch" = ErrorValue m →
          errorMessage (engine:=v8) (ErrorValue "Failed to fetch") = m).
Proof.
  apply (fetchItems_failure_is_captured (engine:=v8) testEnv
           (server HttpResponse_error)
           {| items := item_value <$> mockExecutionItems; loading := false;
              error := None |}
           (ErrorValue "Failed to fetch")).
  apply transport_failure. reflexivity.
Defined.

(** C5 (where the code departs from it): a 2xx response whose body is the
    JSON text [null] has no [items] field, yet the run does not end with the
    validation message: reading [data.items] throws the engine's [TypeError]
    before the validation, and [error] is that [TypeError]'s text. *)
Theorem fetchItems_null_body (engine : Engine) (s : state) :
  run (server (HttpResponse_json VNull)) (fetchItems testEnv s)
  = ({| items := []; loading := false;
        error := Some (typeErrorMessage (NullishRead VNull "items")) |},
     Fulfilled tt)
  ∧ (run (server (HttpResponse_json VNull))
         (fetchItems (engine:=v8) testEnv s)).1
    ≠ {| items := []; loading := false; error := Some validationMessage |}.
Proof.
  split; [by rewrite run_fetchItems|].
  rewrite run_fetchItems. simpl. intros [=].
Qed.

(** * Further properties *)

(** ** Health-status utilities, across the files *)

(** X1: the valid status strings, the statuses [getAllStatuses] lists, the
    keys of [HEALTH_STATUS_CONFIG] and the literals of the [HealthStatus]
    type are the same three strings: [isValidStatus] accepts a string exactly
    when the table has an entry for it. *)
Theorem status_sets_agree (v : string) :
  (isValidStatus v = true ↔ v ∈ getAllStatuses)
  ∧ (isValidStatus v = true ↔ is_Some (HEALTH_STATUS_CONFIG !! v))
  ∧ (isValidStatus v = true ↔ ∃ h, v = literal h)
  ∧ (isValidStatus v = false ↔ HEALTH_STATUS_CONFIG !! v = None).
Proof.
  assert (isValidStatus v = true
          ↔ v = "on-track" ∨ v = "at-risk" ∨ v = "off-track") as Hvalid.
  { unfold isValidStatus, includes.
    rewrite bool_decide_eq_true, !elem_of_cons, elem_of_nil. tauto. }
  assert (is_Some (HEALTH_STATUS_CONFIG !! v)
          ↔ v = "on-track" ∨ v = "at-risk" ∨ v = "off-track") as Hkeys.
  { unfold HEALTH_STATUS_CONFIG.
    rewrite !lookup_insert_is_Some, lookup_singleton_is_Some.
    split; [intros [?|[_ [?|[_ ?]]]]; auto|].
    intros [-> | [-> | ->] ]; [by left|right; split; [done|by left]|].
    right. split; [done|]. right. by split. }
  split_and!.
  - unfold isValidStatus, includes, getAllStatuses. apply bool_decide_eq_true.
  - by rewrite Hvalid, Hkeys.
  - rewrite Hvalid. split.
    + intros [-> | [-> | ->] ];
        [by exists on_track|by exists at_risk|by exists off_track].
    + intros [[] ->]; simpl; auto.
  - rewrite <- not_true_iff_false, Hvalid, <- Hkeys, <- eq_None_not_Some.
    done.
Qed.

Lemma isValidStatus_false (s : string) :
  isValidStatus s = false
  ↔ s ≠ "on-track" ∧ s ≠ "at-risk" ∧ s ≠ "off-track".
Proof.
  unfold isValidStatus, includes.
  rewrite bool_decide_eq_false, !elem_of_cons, elem_of_nil. tauto.
Qed.

(** X2: the badge functions fall back to [Unknown] and to the grey colour
    pair on exactly the strings [isValidStatus] rejects (the empty string
    among them); every valid status gets a label and colours of its own. *)
Theorem badge_fallback_iff_invalid (s : string) :
  (getStatusLabel (Defined s) = "Unknown" ↔ isValidStatus s = false)
  ∧ (getStatusColor (Defined s)
     = {| text := "#656b75"; background := "#f3f3f3" |}
     ↔ isValidStatus s = false).
Proof.
  rewrite isValidStatus_false. unfold getStatusLabel, getStatusColor, falsy.
  destruct (bool_decide_reflect (s = EmptyString)) as [->|Hne];
    [by split; split|].
  repeat case_bool_decide; subst; split; (split; [try done|]);
    intros (? & ? & ?); done.
Qed.

(** X3: [getStatusClassName] gives the fallback class for [undefined],
    [null], the empty string and the string [unknown], and for nothing else;
    any other string gets the prefix [health-status-] put before it, so two
    different non-empty statuses never share a class name. *)
Theorem class_name_fallback (status : nullable string) :
  (getStatusClassName status = "health-status-unknown"
   ↔ status = Undefined ∨ status = Null ∨ status = Defined EmptyString
     ∨ status = Defined "unknown")
  ∧ (∀ a b, a ≠ EmptyString → b ≠ EmptyString →
       getStatusClassName (Defined a) = getStatusClassName (Defined b) →
       a = b)
  ∧ (∀ a, a ≠ EmptyString →
       getStatusClassName (Defined a) = "health-status-" ++ a).
Proof.
  assert (∀ a, a ≠ EmptyString →
            getStatusClassName (Defined a) = "health-status-" ++ a) as Hcls.
  { intros a Ha. unfold getStatusClassName, falsy.
    by rewrite bool_decide_eq_false_2. }
  split_and!; [|intros a b Ha Hb|done].
  - destruct status as [| |a]; [by split; auto..|].
    destruct (decide (a = EmptyString)) as [->|Ha]; [by split; auto|].
    rewrite Hcls by done. split.
    + change "health-status-unknown" with ("health-status-" ++ "unknown").
      intros ->%(inj (String.append _)). auto.
    + intros [?|[?|[[=]|[= ->]]]]; done.
  - rewrite !Hcls by done. apply (inj (String.append _)).
Qed.

(** X4: the helpers of the type validation file agree with the composable
    and with the badge functions: [isValidHealthStatus] is [isValidStatus],
    and [getHealthStatusColor] gives a typed item the colour of both tables.
    On an object whose [healthStatus] is none of the three strings it returns
    that property itself, not a colour. *)
Theorem validation_helpers_agree :
  (∀ s, isValidHealthStatus s = isValidStatus s)
  ∧ (∀ it, getHealthStatusColor (item_value it)
           = Fulfilled (VStr (text (getStatusColor
                                      (Defined (literal (healthStatus it)))))))
  ∧ (∀ it c, getStatusConfig (healthStatus it) = Some c →
             getHealthStatusColor (item_value it) = Fulfilled (VStr (color c)))
  ∧ (∀ fs h, field "healthStatus" fs = Some h →
             (∀ s, h = VStr s → isValidStatus s = false) →
             getHealthStatusColor (VObj fs) = Fulfilled h).
Proof.
  split_and!.
  - intros s. apply eq_true_iff_eq.
    unfold isValidHealthStatus, isValidStatus, includes.
    rewrite !orb_true_iff, !bool_decide_eq_true, !elem_of_cons, elem_of_nil.
    tauto.
  - by intros [? ? ? [] ? ?].
  - intros [? ? ? [] ? ?] c; simpl; intros Hc; vm_compute in Hc;
      by injection Hc as <-.
  - intros fs h Hfield Hinvalid. unfold getHealthStatusColor. simpl.
    rewrite Hfield. cbn [mbind settled_bind default].
    destruct h as [| | | |s| |]; simpl; try done.
    specialize (Hinvalid s eq_refl). apply isValidStatus_false in Hinvalid.
    destruct Hinvalid as (? & ? & ?).
    by rewrite !bool_decide_eq_false_2.
Qed.

(** ** The OKR hierarchy helpers *)

(** X5: [countHierarchyItems] adds up the lengths of the levels that are
    present; a level left out and an empty level count alike, so the count is
    zero exactly when every level is left out or empty. *)
Theorem countHierarchyItems_zero_iff (hierarchy : OKRHierarchy) :
  countHierarchyItems hierarchy
  = length (default [] (objective hierarchy))
    + length (default [] (keyResults hierarchy))
    + length (default [] (initiatives hierarchy))
    + length (default [] (features hierarchy))
    + length (default [] (subFeatures hierarchy))
  ∧ (countHierarchyItems hierarchy = 0
     ↔ (objective hierarchy = None ∨ objective hierarchy = Some [])
       ∧ (keyResults hierarchy = None ∨ keyResults hierarchy = Some [])
       ∧ (initiatives hierarchy = None ∨ initiatives hierarchy = Some [])
       ∧ (features hierarchy = None ∨ features hierarchy = Some [])
       ∧ (subFeatures hierarchy = None ∨ subFeatures hierarchy = Some [])).
Proof.
  assert (∀ {X} (o : option (list X)),
            length (default [] o) = 0 ↔ o = None ∨ o = Some []) as Hlevel.
  { intros X [[|x l]|]; simpl; split; try done; auto; intros [|]; done. }
  assert (countHierarchyItems hierarchy
          = length (default [] (objective hierarchy))
            + length (default [] (keyResults hierarchy))
            + length (default [] (initiatives hierarchy))
            + length (default [] (features hierarchy))
            + length (default [] (subFeatures hierarchy))) as Hsum.
  { destruct hierarchy as [[?|] [?|] [?|] [?|] [?|]]; cbn; lia. }
  split; [exact Hsum|]. rewrite Hsum, <- !Hlevel. lia.
Qed.

(** A string that starts with a decimal digit. *)
Lemma pretty_N_char_digit (x : N) :
  pretty_N_char x ∈ String.list_ascii_of_string "0123456789".
Proof.
  unfold pretty_N_char. repeat case_match; apply (bool_decide_unpack _); done.
Qed.

Lemma pretty_N_go_digit (x : N) (s : string) :
  (0 < x)%N ∨ (∃ c r, s = String c r
                     ∧ c ∈ String.list_ascii_of_string "0123456789") →
  ∃ c r, pretty_N_go x s = String c r
         ∧ c ∈ String.list_ascii_of_string "0123456789".
Proof.
  revert s. induction (N.lt_wf_0 x) as [x _ IH]; intros s Hs.
  assert (x = 0 ∨ 0 < x)%N as [->|Hpos] by lia.
  - rewrite pretty_N_go_0. destruct Hs as [?|?]; [lia|done].
  - rewrite pretty_N_go_step by done. apply IH; [by apply N.div_lt|].
    right. eexists _, _. split; [done|]. apply pretty_N_char_digit.
Qed.

Lemma pretty_nat_digit (n : nat) :
  ∃ c r, pretty n = String c r
         ∧ c ∈ String.list_ascii_of_string "0123456789".
Proof.
  unfold pretty, pretty_nat, pretty, pretty_N. case_decide as Hn.
  - eexists _, _. split; [done|]. apply (bool_decide_unpack _). done.
  - apply pretty_N_go_digit. left. lia.
Qed.

Lemma join_not_empty_hierarchy (n : nat) (unit : string) (rest : list string) :
  join " > " ((pretty n ++ unit) :: rest) ≠ "Empty Hierarchy".
Proof.
  destruct (pretty_nat_digit n) as (c & r & Hn & Hc). rewrite Hn.
  assert (∃ r', join " > " ((String c r ++ unit) :: rest) = String c r')
    as [r' ->].
  { destruct rest; eexists; reflexivity. }
  intros [= -> _]. revert Hc. apply (bool_decide_unpack _). done.
Qed.

(** X6: [getHierarchySummary] is [Empty Hierarchy] exactly when every level
    is left out.  A level that is present but empty still gets its part
    ([0 Objective(s)]): a hierarchy can count zero items and have a summary
    that is not [Empty Hierarchy]. *)
Theorem getHierarchySummary_empty_iff (hierarchy : OKRHierarchy) :
  (getHierarchySummary hierarchy = "Empty Hierarchy"
   ↔ objective hierarchy = None ∧ keyResults hierarchy = None
     ∧ initiatives hierarchy = None ∧ features hierarchy = None
     ∧ subFeatures hierarchy = None)
  ∧ (getHierarchySummary hierarchy = "Empty Hierarchy" →
     countHierarchyItems hierarchy = 0)
  ∧ (objective hierarchy = Some [] →
     keyResults hierarchy = None → initiatives hierarchy = None →
     features hierarchy = None → subFeatures hierarchy = None →
     countHierarchyItems hierarchy = 0
     ∧ getHierarchySummary hierarchy = "0 Objective(s)").
Proof.
  assert (getHierarchySummary hierarchy = "Empty Hierarchy"
          ↔ objective hierarchy = None ∧ keyResults hierarchy = None
            ∧ initiatives hierarchy = None ∧ features hierarchy = None
            ∧ subFeatures hierarchy = None) as Hiff.
  { destruct hierarchy as [[o|] [k|] [i|] [f|] [s|]];
      unfold getHierarchySummary;
      cbn [objective keyResults initiatives features subFeatures app length];
      (split; [|by intros (? & ? & ? & ? & ?)]);
      try (rewrite bool_decide_eq_true_2 by lia;
           by intros ?%join_not_empty_hierarchy).
    done. }
  split_and!; [exact Hiff| |].
  - intros (Ho & Hk & Hi & Hf & Hs)%Hiff.
    unfold countHierarchyItems. by rewrite Ho, Hk, Hi, Hf, Hs.
  - intros Ho Hk Hi Hf Hs.
    unfold countHierarchyItems, getHierarchySummary.
    by rewrite Ho, Hk, Hi, Hf, Hs.
Qed.

Lemma typeof_string (v : value) :
  bool_decide (typeof v = "string") = true ↔ ∃ s, v = VStr s.
Proof.
  rewrite bool_decide_eq_true. destruct v; simpl; split; try done; eauto;
    intros [? [=]].
Qed.

(** X7: the type guard [isValidObjective] throws on [null] ([typeof null] is
    [object], so the guard goes on to read [obj.id]) and on nothing else; it
    answers true exactly for an object whose [id], [title] and
    [description] are strings, and false for every other value. *)
Theorem isValidObjective_spec (obj : value) :
  (∀ t, isValidObjective obj = Rejected t
        ↔ (obj = VNull ∧ t = TypeError (NullishRead VNull "id")))
  ∧ (isValidObjective obj = Fulfilled true
     ↔ ∃ fs i t d,
         obj = VObj fs
         ∧ field "id" fs = Some (VStr i)
         ∧ field "title" fs = Some (VStr t)
         ∧ field "description" fs = Some (VStr d)).
Proof.
  destruct obj as [| |b|f|s|xs|fs];
    try (split; [intros t; split; [done|by intros [[=] _]]
               |split; [done|by intros (? & ? & ? & ? & [=] & _)]]).
  - split; [intros t; split; [by intros [= <-]|by intros [_ ->]]|].
    split; [done|by intros (? & ? & ? & ? & [=] & _)].
  - unfold isValidObjective. cbn [typeof get mbind settled_bind].
    rewrite bool_decide_eq_true_2 by done. cbn [negb].
    assert (∀ k, (∃ s, default VUndefined (field k fs) = VStr s)
                 ↔ ∃ s, field k fs = Some (VStr s)) as Hfield.
    { intros k. destruct (field k fs) as [v|]; simpl; split;
        intros [s Hs]; simplify_eq; eauto. }
    destruct (bool_decide (typeof (default VUndefined (field "id" fs))
                           = "string")) eqn:Hid; cbn [negb].
    2:{ split; [intros t; split; [done|by intros [[=] _]]|].
        split; [done|]. intros (fs' & i & t & d & [= <-] & Hi & _).
        apply not_true_iff_false in Hid. destruct Hid.
        apply typeof_string, Hfield. eauto. }
    destruct (bool_decide (typeof (default VUndefined (field "title" fs))
                           = "string")) eqn:Htitle; cbn [negb].
    2:{ split; [intros t; split; [done|by intros [[=] _]]|].
        split; [done|]. intros (fs' & i & t & d & [= <-] & _ & Ht & _).
        apply not_true_iff_false in Htitle. destruct Htitle.
        apply typeof_string, Hfield. eauto. }
    split; [intros t; split; [done|by intros [[=] _]]|].
    apply typeof_string, Hfield in Hid as [i Hi].
    apply typeof_string, Hfield in Htitle as [t Ht].
    split.
    + intros [= Hd]. apply typeof_string, Hfield in Hd as [d Hd].
      by exists fs, i, t, d.
    + intros (fs' & i' & t' & d & [= <-] & _ & _ & Hd). f_equal.
      apply typeof_string, Hfield. eauto.
Qed.

(** ** Overlapping loads *)

Section Overlap.
Context {engine : Engine}.

(** A call of [fetchItems] sets [loading], clears [error] and suspends; when
    the fetch settles it either ends, or suspends once more, at
    [response.json()], leaving the refs as it found them; its last
    continuation applies [finish] to the refs it finds. *)
Lemma fetchItems_phases (env : ImportMetaEnv) (w : world) (s : state) :
  state_of (fetchItems env s)
  = {| items := items s; loading := true; error := None |}
  ∧ finished (fetchItems env s) = false
  ∧ ∀ cur,
      resume w (fetchItems env s) cur
      = Finished (finish env w cur) (Fulfilled tt)
      ∨ (finished (resume w (fetchItems env s) cur) = false
         ∧ state_of (resume w (fetchItems env s) cur) = cur
         ∧ ∀ cur',
             resume w (resume w (fetchItems env s) cur) cur'
             = Finished (finish env w cur') (Fulfilled tt)).
Proof.
  unfold finish, attempt, fetchItems, fetchItems_try, fetchItems_catch.
  rewrite fullUrl_truthy.
  unfold mbind, prog_bind, settled_bind, mret, prog_ret, try_finally,
    try_catch, await, lift, throw, set_loading, set_error, set_items.
  cbn [negb bind_step catch_step finally_step state_of finished resume answer
       items loading error].
  split_and!; [done|done|]. intros cur.
  destruct (w _ _) as [response|t]; [|by left].
  destruct (ok response); cbn [negb bind_step catch_step finally_step
    state_of finished resume answer items loading error]; [|by left].
  right. split_and!; [done|done|]. intros cur'.
  destruct (body response) as [data|t]; [|done].
  destruct (invalidItems data) as [[]|t]; [done| |done].
  cbn [bind_step catch_step finally_step].
  by destruct (mapItems normalizeItem data).
Qed.

(** One settlement either leaves a call waiting, the refs untouched, or ends
    it, the refs becoming what [finish] makes of them. *)
Lemma progress_resume (env : ImportMetaEnv) (w : world) (st : step unit)
    (cur : state) :
  progress env w st →
  finished st = false →
  progress env w (resume w st cur)
  ∧ ((finished (resume w st cur) = false ∧ state_of (resume w st cur) = cur)
     ∨ (finished (resume w st cur) = true
        ∧ state_of (resume w st cur) = finish env w cur)).
Proof.
  intros [s|st' Hst' Hlast|s] Hpending; [| |done].
  - destruct (fetchItems_phases env w s) as (_ & _ & Hphases).
    destruct (Hphases cur) as [->|(Hnot & Hstate & Hlast)].
    + split; [apply completed|by right].
    + split; [by apply waiting_json|by left].
  - rewrite Hlast. split; [apply completed|by right].
Qed.

Lemma react_well_formed (p : pool) (e : event) :
  well_formed p → well_formed (react p e).
Proof.
  intros Hwf. destruct e as [env w|i]; simpl.
  - apply Forall_app. split; [done|]. apply Forall_singleton.
    apply waiting_fetch.
  - destruct (calls p !! i) as [[[env w] st]|] eqn:Hi; [|done].
    destruct (finished st) eqn:Hfin; [done|].
    apply Forall_insert; [done|]. simpl.
    eapply (progress_resume env w st); [|done].
    by apply (Forall_lookup_1 _ _ _ _ Hwf Hi).
Qed.

Lemma event_loop_well_formed (events : list event) :
  well_formed (event_loop events).
Proof.
  unfold event_loop. induction events as [|e events IH] using rev_ind.
  - by apply Forall_nil.
  - rewrite foldl_snoc. by apply react_well_formed.
Qed.

(** What one event does to the refs: a call sets [loading] and clears
    [error]; a settlement changes nothing unless it ends its call, and then
    it applies that call's [finish]. *)
Lemma react_refs (p : pool) (e : event) :
  well_formed p →
  match e with
  | call env w =>
      refs (react p e)
      = {| items := items (refs p); loading := true; error := None |}
  | settle i =>
      refs (react p e) = refs p
      ∨ ∃ env w st,
          calls p !! i = Some (env, w, st)
          ∧ finished st = false
          ∧ refs (react p e) = finish env w (refs p)
  end.
Proof.
  intros Hwf. destruct e as [env w|i]; simpl.
  - by destruct (fetchItems_phases env w (refs p)) as (-> & _).
  - destruct (calls p !! i) as [[[env w] st]|] eqn:Hi; [|by left].
    destruct (finished st) eqn:Hfin; [by left|]. simpl.
    destruct (progress_resume env w st (refs p)) as (_ & [[_ ->]|[_ ->]]);
      [by apply (Forall_lookup_1 _ _ _ _ Hwf Hi)|done|by left|].
    right. by exists env, w, st.
Qed.

Lemma react_calls_fst (p : pool) (e : event) :
  ∀ c, c ∈ (calls p).*1 → c ∈ (calls (react p e)).*1.
Proof.
  intros c Hc. destruct e as [env w|i]; simpl.
  - rewrite fmap_app. apply elem_of_app. by left.
  - destruct (calls p !! i) as [[[env w] st]|] eqn:Hi; [|done].
    destruct (finished st); [done|]. simpl.
    rewrite list_fmap_insert. simpl.
    rewrite list_insert_id; [done|]. by rewrite list_lookup_fmap, Hi.
Qed.

(** X8: however calls of [fetchItems] and the settlements of their promises
    interleave on one instance, [items] is at every moment either empty or
    the complete normalized array of one of the calls made, a call whose
    fetch succeeded; overlapping loads never leave a mixture or a part of an
    array. *)
Theorem overlapping_items_complete_or_empty (events : list event) :
  items (refs (event_loop events)) = []
  ∨ ∃ env w,
      (env, w) ∈ (calls (event_loop events)).*1
      ∧ succeeds env w (items (refs (event_loop events))).
Proof.
  induction events as [|e events IH] using rev_ind; [by left|].
  pose proof (event_loop_well_formed events) as Hwf.
  pose proof (react_refs (event_loop events) e Hwf) as Hrefs.
  pose proof (react_calls_fst (event_loop events) e) as Hcalls.
  unfold event_loop in *. rewrite foldl_snoc.
  set (p := foldl react {| refs := useExecutionItems; calls := [] |} events)
    in *.
  assert (items (refs (react p e)) = items (refs p)
          ∨ items (refs (react p e)) = []
          ∨ ∃ env w, (env, w) ∈ (calls (react p e)).*1
                     ∧ succeeds env w (items (refs (react p e))))
    as [Hsame|[Hempty|Hnew]]; [|destruct IH as [IH|(env & w & Hin & Hok)]| |].
  - destruct e as [env w|i]; [left; by rewrite Hrefs|].
    destruct Hrefs as [->|(env & w & st & Hi & Hfin & Hfinish)]; [by left|].
    right. rewrite Hfinish. unfold finish.
    destruct (attempt env w) as [xs|t] eqn:Hattempt; [|by left].
    right. exists env, w. split; [|by apply attempt_fulfilled].
    apply Hcalls. apply (list_elem_of_fmap_2 fst (calls p) (env, w, st)).
    by eapply list_elem_of_lookup_2.
  - left. by rewrite Hsame.
  - right. exists env, w. rewrite Hsame. auto.
  - by left.
  - by right.
Qed.

(** Two settlements in a row of a call just made end it. *)
Lemma settle_settle (p : pool) (i : nat) (env : ImportMetaEnv) (w : world)
    (s : state) :
  calls p !! i = Some (env, w, fetchItems env s) →
  refs (react (react p (settle i)) (settle i)) = finish env w (refs p)
  ∧ ∃ st, calls (react (react p (settle i)) (settle i))
          = <[i := (env, w, st)]> (calls p)
          ∧ finished st = true.
Proof.
  intros Hi. destruct (fetchItems_phases env w s) as (_ & Hfin & Hphases).
  cbn [react]. rewrite Hi, Hfin. cbn [refs calls].
  assert (i < length (calls p)) as Hlen by by eapply lookup_lt_Some.
  destruct (Hphases (refs p)) as [Hend|(Hnot & Hstate & Hlast)].
  - rewrite Hend. rewrite list_lookup_insert_eq by done. cbn [finished].
    split; [done|]. by eexists.
  - rewrite list_lookup_insert_eq by done. rewrite Hnot. cbn [refs calls].
    rewrite Hstate, Hlast, list_insert_insert_eq. split; [done|]. by eexists.
Qed.

(** X9: two overlapping loads on one instance, the second called while the
    first is waiting, the first failing and the second succeeding.  If the
    first ends first, the refs end with the items of the second beside the
    error message of the first: nothing clears that error.  Meanwhile, once
    the first has ended, [loading] is false though the second is still
    waiting.  If the second ends first, its items are discarded when the
    first ends. *)
Theorem overlapping_loads_stale_error (envA envB : ImportMetaEnv)
    (wa wb : world) (t : thrown) (xs : list value) :
  failure envA wa t →
  succeeds envB wb xs →
  refs (event_loop [call envA wa; call envB wb;
                    settle 0; settle 0; settle 1; settle 1])
  = {| items := xs; loading := false; error := Some (errorMessage t) |}
  ∧ (loading (refs (event_loop [call envA wa; call envB wb;
                                settle 0; settle 0])) = false
     ∧ ∃ st, calls (event_loop [call envA wa; call envB wb;
                                settle 0; settle 0]) !! 1
             = Some (envB, wb, st)
             ∧ finished st = false)
  ∧ refs (event_loop [call envA wa; call envB wb;
                      settle 1; settle 1; settle 0; settle 0])
    = {| items := []; loading := false; error := Some (errorMessage t) |}.
Proof.
  intros HA%attempt_rejected HB%attempt_fulfilled.
  unfold event_loop. cbn [foldl].
  set (p2 := react (react {| refs := useExecutionItems; calls := [] |}
                          (call envA wa)) (call envB wb)).
  assert (calls p2 !! 0 = Some (envA, wa, fetchItems envA useExecutionItems))
    as H0 by done.
  assert (∃ s, calls p2 !! 1 = Some (envB, wb, fetchItems envB s)
               ∧ finished (fetchItems envB s) = false)
    as (sB & H1 & HfinB).
  { eexists. split; [done|].
    by destruct (fetchItems_phases envB wb
      (state_of (fetchItems envA useExecutionItems))) as (_ & ? & _). }
  destruct (settle_settle p2 0 _ _ _ H0) as (Hr0 & st0 & Hc0 & Hf0).
  destruct (settle_settle p2 1 _ _ _ H1) as (Hr1 & st1 & Hc1 & Hf1).
  set (pA := react (react p2 (settle 0)) (settle 0)) in *.
  set (pB := react (react p2 (settle 1)) (settle 1)) in *.
  assert (calls pA !! 1 = Some (envB, wb, fetchItems envB sB)) as H1A.
  { rewrite Hc0. by rewrite list_lookup_insert_ne. }
  assert (calls pB !! 0 = Some (envA, wa, fetchItems envA useExecutionItems))
    as H0B.
  { rewrite Hc1. by rewrite list_lookup_insert_ne. }
  destruct (settle_settle pA 1 _ _ _ H1A) as (HrAB & _).
  destruct (settle_settle pB 0 _ _ _ H0B) as (HrBA & _).
  split_and!.
  - rewrite HrAB, Hr0. unfold finish. by rewrite HA, HB.
  - rewrite Hr0. unfold finish. by rewrite HA.
  - by exists (fetchItems envB sB).
  - rewrite HrBA, Hr1. unfold finish. by rewrite HA.
Qed.

(** X10: one run of [fetchItems] makes exactly one request, a [GET] of the
    resolved URL with the JSON content type, and never repeats it; it calls
    [response.json()] once, and only on a response whose status is in
    200..299: the body of an error response is never read. *)
Theorem fetchItems_requests (env : ImportMetaEnv) (w : world) (s : state) :
  awaited w (fetchItems env s)
  = awaiting (fetch (fullUrl (getApiConfig env)) requestInit)
    :: match w (fullUrl (getApiConfig env)) requestInit with
       | Fulfilled response =>
           if ok response then [awaiting (json response)] else []
       | Rejected _ => []
       end.
Proof.
  unfold fetchItems, fetchItems_try, fetchItems_catch.
  rewrite fullUrl_truthy.
  unfold mbind, prog_bind, settled_bind, mret, prog_ret, try_finally,
    try_catch, await, lift, throw, set_loading, set_error, set_items.
  cbn [negb bind_step catch_step finally_step awaited answer
       items loading error].
  f_equal. destruct (w _ _) as [response|t]; [|done].
  destruct (ok response); cbn [negb bind_step catch_step finally_step
    awaited answer items loading error]; [|done].
  f_equal. destruct (body response) as [data|t]; [|done].
  destruct (invalidItems data) as [[]|t]; [done| |done].
  cbn [bind_step catch_step finally_step].
  by destruct (mapItems normalizeItem data).
Qed.

End Overlap.

(** The first load meets a network error, the second the mock data. *)
Lemma overlapping_loads_stale_error_witness :
  refs (event_loop (engine:=v8)
          [call testEnv (server HttpResponse_error);
           call testEnv (server (HttpResponse_json mockSuccessResponse));
           settle 0; settle 0; settle 1; settle 1])
  = {| items := item_value <$> mockExecutionItems; loading := false;
       error := Some "Failed to fetch" |}
  ∧ (loading (refs (event_loop (engine:=v8)
          [call testEnv (server HttpResponse_error);
           call testEnv (server (HttpResponse_json mockSuccessResponse));
           settle 0; settle 0])) = false
     ∧ ∃ st, calls (event_loop (engine:=v8)
          [call testEnv (server HttpResponse_error);
           call testEnv (server (HttpResponse_json mockSuccessResponse));
           settle 0; settle 0]) !! 1
             = Some (testEnv, server (HttpResponse_json mockSuccessResponse),
                     st)
             ∧ finished st = false)
  ∧ refs (event_loop (engine:=v8)
          [call testEnv (server HttpResponse_error);
           call testEnv (server (HttpResponse_json mockSuccessResponse));
           settle 1; settle 1; settle 0; settle 0])
    = {| items := []; loading := false; error := Some "Failed to fetch" |}.
Proof.
  apply (overlapping_loads_stale_error (engine:=v8) testEnv testEnv
           (server HttpResponse_error)
           (server (HttpResponse_json mockSuccessResponse))
           (ErrorValue "Failed to fetch")
           (item_value <$> mockExecutionItems)).
  - apply transport_failure. reflexivity.
  - exists {| status := 200; statusText := "OK";
              body := Fulfilled mockSuccessResponse |},
           mockSuccessResponse, (item_value <$> mockExecutionItems).
    split_and!; reflexivity.
Defined.

(** ** Edge cases of the normalization *)

Lemma field_None_keys (k : string) (fs : list (string * value)) :
  field k fs = None ↔ k ∉ fs.*1.
Proof.
  induction fs as [|[k' v] fs IH]; simpl.
  - split; [intros _ ?%elem_of_nil; done|done].
  - rewrite not_elem_of_cons. destruct (decide (k' = k)) as [->|Hne].
    + split; [done|by intros [? _]].
    + rewrite IH. split; [by intros ?; split|by intros [_ ?]].
Qed.

Lemma define_keys (k : string) (v : value) (fs : list (string * value)) :
  (define k v fs).*1
  = if decide (k ∈ fs.*1) then fs.*1 else (fs.*1 ++ [k])%list.
Proof.
  induction fs as [|[k' v'] fs IH].
  - case_decide as Hin; [by apply elem_of_nil in Hin|done].
  - cbn [define]. destruct (decide (k' = k)) as [->|Hne].
    + rewrite decide_True; [done|]. by left.
    + rewrite fmap_cons, IH. cbn [fst fmap list_fmap].
      destruct (decide (k ∈ fs.*1)) as [Hin|Hnotin].
      * rewrite decide_True; [done|]. by right.
      * rewrite decide_False; [done|]. by intros [?|?]%elem_of_cons.
Qed.

Lemma define_NoDup (k : string) (v : value) (fs : list (string * value)) :
  NoDup fs.*1 → NoDup (define k v fs).*1.
Proof.
  intros Hnd. rewrite define_keys. case_decide as Hin; [done|].
  apply NoDup_app. split_and!; [done| |apply NoDup_singleton].
  intros x Hx ->%list_elem_of_singleton. done.
Qed.

Lemma define_define (k : string) (v : value) (fs : list (string * value)) :
  define k v (define k v fs) = define k v fs.
Proof.
  induction fs as [|[k' v'] fs IH]; simpl.
  - by rewrite decide_True.
  - destruct (decide (k' = k)) as [->|Hne]; simpl.
    + by rewrite decide_True.
    + rewrite decide_False by done. by rewrite IH.
Qed.

(** X15: an element that has no [healthStatus] is not rejected.  An object
    without the property is stored with [healthStatus: undefined] added
    after its own properties; a number or a boolean in the array becomes an
    object with that property alone; only [null] makes the callback throw. *)
Theorem normalizeItem_without_status :
  (∀ fs, NoDup fs.*1 → field "healthStatus" fs = None →
         normalizeItem (VObj fs)
         = Fulfilled (VObj (fs ++ [("healthStatus", VUndefined)])%list))
  ∧ (∀ b, normalizeItem (VBool b)
          = Fulfilled (VObj [("healthStatus", VUndefined)]))
  ∧ (∀ f, normalizeItem (VNum f)
          = Fulfilled (VObj [("healthStatus", VUndefined)]))
  ∧ (∀ item t, normalizeItem item = Rejected t
               ↔ (item = VNull ∨ item = VUndefined)
                 ∧ t = TypeError (NullishRead item "healthStatus")).
Proof.
  split_and!; [|done|done|].
  - intros fs Hnd Hnone. rewrite normalizeItem_object by done.
    rewrite Hnone. simpl. rewrite define_fresh; [done|].
    by apply field_None_keys.
  - intros item t. unfold normalizeItem, classifyStatus.
    destruct item; simpl; split; try done;
      try (by intros [[[=]|[=]] _]);
      try (by intros [_ ->]); try (intros [= <-]; auto).
Qed.

(** X16: normalizing is idempotent on JSON objects: the normalized form of an
    item normalizes to itself. *)
Theorem normalizeItem_idempotent (fs : list (string * value)) (out : value) :
  NoDup fs.*1 →
  normalizeItem (VObj fs) = Fulfilled out →
  normalizeItem out = Fulfilled out.
Proof.
  intros Hnd. rewrite normalizeItem_object by done. intros [= <-].
  rewrite normalizeItem_object by by apply define_NoDup.
  rewrite field_define, decide_True by done. simpl.
  by rewrite define_define.
Qed.

Lemma normalizeItem_idempotent_witness :
  normalizeItem (VObj [("moduleName", VStr "Payment Gateway");
                       ("healthStatus", VUndefined)])
  = Fulfilled (VObj [("moduleName", VStr "Payment Gateway");
                     ("healthStatus", VUndefined)]).
Proof.
  apply (normalizeItem_idempotent
           [("moduleName", VStr "Payment Gateway")]
           (VObj [("moduleName", VStr "Payment Gateway");
                  ("healthStatus", VUndefined)])).
  - apply (bool_decide_unpack _). by vm_compute.
  - reflexivity.
Defined.

Lemma array_map_null (its : list value) :
  VNull ∈ its → VUndefined ∉ its →
  array_map normalizeItem its
  = Rejected (TypeError (NullishRead VNull "healthStatus")).
Proof.
  induction its as [|x its IH]; [by intros ?%elem_of_nil|].
  intros Hnull [Hx Hundef]%not_elem_of_cons. simpl.
  destruct (normalizeItem x) as [y|t] eqn:Hnorm; cbn [mbind settled_bind].
  - apply elem_of_cons in Hnull as [<-|Hnull]; [done|].
    by rewrite IH.
  - destruct x; try done. by injection Hnorm as <-.
Qed.

Section Edges.
Context {engine : Engine}.

(** X17: one [null] among the elements of the [items] array makes the whole
    load fail: the callback throws on it, no element is stored, not even
    those before it, and [error] is the engine's text for reading
    [healthStatus] of [null]. *)
Theorem fetchItems_null_element (env : ImportMetaEnv) (w : world) (s : state)
    (response : Response) (data : value) (its : list value) :
  w (fullUrl (getApiConfig env)) requestInit = Fulfilled response →
  ok response = true →
  body response = Fulfilled data →
  get data "items" = Fulfilled (VArr its) →
  VNull ∈ its →
  VUndefined ∉ its →
  run w (fetchItems env s)
  = ({| items := []; loading := false;
        error := Some (typeErrorMessage
                         (NullishRead VNull "healthStatus")) |},
     Fulfilled tt).
Proof.
  intros Hw Hok Hbody Hget Hnull Hundef. rewrite run_fetchItems.
  assert (attempt env w
          = Rejected (TypeError (NullishRead VNull "healthStatus"))) as ->;
    [|done].
  apply attempt_rejected.
  destruct (items_array _ _ Hget) as [Hvalid Hmap].
  eapply normalization_failure; [done..|].
  rewrite Hmap. by apply array_map_null.
Qed.

End Edges.

(** The mock items followed by a [null]. *)
Lemma fetchItems_null_element_witness :
  run (server (HttpResponse_json
                 (VObj [("items",
                         VArr ((item_value <$> mockExecutionItems)
                               ++ [VNull])%list)])))
      (fetchItems (engine:=v8) testEnv useExecutionItems)
  = ({| items := []; loading := false;
        error :=
          Some "Cannot read properties of null (reading 'healthStatus')" |},
     Fulfilled tt).
Proof.
  apply (fetchItems_null_element (engine:=v8) testEnv _ useExecutionItems
           {| status := 200; statusText := "OK";
              body := Fulfilled
                (VObj [("items",
                        VArr ((item_value <$> mockExecutionItems)
                              ++ [VNull])%list)]) |}
           (VObj [("items",
                   VArr ((item_value <$> mockExecutionItems)
                         ++ [VNull])%list)])
           ((item_value <$> mockExecutionItems) ++ [VNull])%list).
  - reflexivity.
  - reflexivity.
  - reflexivity.
  - reflexivity.
  - apply elem_of_app. right. apply list_elem_of_singleton. reflexivity.
  - intros Hin. apply elem_of_app in Hin as [Hin|Hin].
    + apply list_elem_of_fmap in Hin as (it & Heq & _). discriminate Heq.
    + apply list_elem_of_singleton in Hin. discriminate Hin.
Defined.

(** The test suite's body without an [items] field. *)
Lemma fetchItems_invalid_items_witness :
  run (server (HttpResponse_json (VObj [("total", VNum 10%float)])))
      (fetchItems (engine:=v8) testEnv useExecutionItems)
  = ({| items := []; loading := false; error := Some validationMessage |},
     Fulfilled tt)
  ∧ contains validationMessage "items".
Proof.
  apply (fetchItems_invalid_items (engine:=v8) testEnv _ useExecutionItems
           {| status := 200; statusText := "OK";
              body := Fulfilled (VObj [("total", VNum 10%float)]) |}
           (VObj [("total", VNum 10%float)]) VUndefined).
  - reflexivity.
  - reflexivity.
  - reflexivity.
  - reflexivity.
  - reflexivity.
Defined.

(** The test suite's successful fetch, as typed items. *)
Lemma fetchItems_typed_items_witness :
  run (server (HttpResponse_json mockSuccessResponse))
      (fetchItems (engine:=v8) testEnv useExecutionItems)
  = ({| items := item_value <$> mockExecutionItems; loading := false;
        error := None |}, Fulfilled tt).
Proof.
  apply (fetchItems_typed_items (engine:=v8) testEnv _ useExecutionItems
           {| status := 200; statusText := "OK";
              body := Fulfilled mockSuccessResponse |}
           mockSuccessResponse mockExecutionItems).
  - reflexivity.
  - reflexivity.
  - reflexivity.
  - reflexivity.
Defined.

(** ** The sort comparison *)

Lemma string_compare_refl (x : string) : String.compare x x = Eq.
Proof.
  pose proof (String.compare_antisym x x) as Hanti.
  destruct (String.compare x x); simpl in Hanti; congruence.
Qed.

Lemma string_compare_le_trans (x y z : string) :
  String.compare x y ≠ Gt → String.compare y z ≠ Gt →
  String.compare x z ≠ Gt.
Proof.
  intros Hxy Hyz.
  assert (String.le x y) as Hle1.
  { unfold String.le, String.leb. by destruct (String.compare x y). }
  assert (String.le y z) as Hle2.
  { unfold String.le, String.leb. by destruct (String.compare y z). }
  assert (String.le x z) as Hle by by etrans.
  unfold String.le, String.leb in Hle. by destruct (String.compare x z).
Qed.

Lemma compareItems_asc (c : Column) (a b : ExecutionItem) :
  compareItems {| column := c; direction := asc |} a b
  = match String.compare (column_value c a) (column_value c b) with
    | Lt => (-1)%Z
    | Eq => 0%Z
    | Gt => 1%Z
    end.
Proof.
  unfold compareItems, String.ltb. simpl.
  rewrite (String.compare_antisym (column_value c b) (column_value c a)).
  by destruct (String.compare (column_value c a) (column_value c b)).
Qed.

Lemma compareItems_desc (c : Column) (a b : ExecutionItem) :
  compareItems {| column := c; direction := desc |} a b
  = (- compareItems {| column := c; direction := asc |} a b)%Z.
Proof. done. Qed.

(** X18: the comparison function of [sortExecutionItems] is a consistent
    comparator, whatever the column and the direction: an item compares
    equal to itself, swapping the arguments negates the result, the order is
    transitive, two items compare equal exactly when they agree on the
    column, and [desc] is the negation of [asc].  The result of [sort] with
    it is therefore well defined. *)
Theorem compareItems_consistent (config : TableSortConfig) :
  (∀ a, compareItems config a a = 0%Z)
  ∧ (∀ a b, compareItems config b a = (- compareItems config a b)%Z)
  ∧ (∀ a b c, (compareItems config a b ≤ 0)%Z →
              (compareItems config b c ≤ 0)%Z →
              (compareItems config a c ≤ 0)%Z)
  ∧ (∀ a b, compareItems config a b = 0%Z
            ↔ column_value (column config) a = column_value (column config) b)
  ∧ (∀ a b, compareItems {| column := column config; direction := desc |} a b
            = (- compareItems {| column := column config;
                                 direction := asc |} a b)%Z).
Proof.
  destruct config as [c d].
  assert (∀ a b, compareItems {| column := c; direction := asc |} b a
                 = (- compareItems {| column := c; direction := asc |} a b)%Z)
    as Hanti.
  { intros a b. rewrite !compareItems_asc.
    rewrite (String.compare_antisym (column_value c b) (column_value c a)).
    by destruct (String.compare (column_value c a) (column_value c b)). }
  assert (∀ a b c', (compareItems {| column := c; direction := asc |} a b
                     ≤ 0)%Z →
                    (compareItems {| column := c; direction := asc |} b c'
                     ≤ 0)%Z →
                    (compareItems {| column := c; direction := asc |} a c'
                     ≤ 0)%Z) as Htrans.
  { intros a b c'. rewrite !compareItems_asc. intros Hab Hbc.
    pose proof (string_compare_le_trans (column_value c a) (column_value c b)
                  (column_value c c')) as Hle.
    destruct (String.compare (column_value c a) (column_value c b));
      destruct (String.compare (column_value c b) (column_value c c'));
      destruct (String.compare (column_value c a) (column_value c c'));
      try lia; exfalso; by apply Hle. }
  assert (∀ a b, compareItems {| column := c; direction := asc |} a b = 0%Z
                 ↔ column_value c a = column_value c b) as Heq.
  { intros a b. rewrite compareItems_asc. split.
    - destruct (String.compare (column_value c a) (column_value c b)) eqn:Hc;
        [|done..]. intros _. by apply String.compare_eq_iff.
    - intros ->. by rewrite string_compare_refl. }
  simpl. split_and!; [| | | |done].
  - intros a. destruct d; [|rewrite compareItems_desc];
      by rewrite compareItems_asc, string_compare_refl.
  - intros a b. destruct d; [apply Hanti|].
    rewrite !compareItems_desc, Hanti. done.
  - intros a b c'. destruct d; [apply Htrans|].
    rewrite !compareItems_desc. intros Hab Hbc.
    pose proof (Hanti a b). pose proof (Hanti b c'). pose proof (Hanti a c').
    pose proof (Htrans c' b a). lia.
  - intros a b. destruct d; [apply Heq|].
    rewrite compareItems_desc, <- Heq. lia.
Qed.

(** ** The environment defaults of the test setup *)

Lemma or_else_Some_or_else (x : option string) (d d' : string) :
  d ≠ EmptyString → or_else (Some (or_else x d)) d' = or_else x d.
Proof.
  intros Hd. unfold or_else at 1.
  rewrite bool_decide_eq_false_2; [done|]. by apply or_else_nonempty.
Qed.

(** X19: the setup's defaults are applied once and for all (running it again
    changes nothing) and touch only what is unset or empty.  The endpoint
    [getApiConfig] resolves is the same with and without the setup, which
    only repeats the fallback [getApiConfig] has itself; the base URL is what
    the setup adds, so that under the setup it is never empty. *)
Theorem setupEnv_defaults (env : ImportMetaEnv) :
  setupEnv (setupEnv env) = setupEnv env
  ∧ endpoint (getApiConfig (setupEnv env)) = endpoint (getApiConfig env)
  ∧ baseUrl (getApiConfig (setupEnv env))
    = or_else (VITE_API_BASE_URL env) "http://localhost:3000"
  ∧ baseUrl (getApiConfig (setupEnv env)) ≠ EmptyString
  ∧ (baseUrl (getApiConfig env) ≠ EmptyString →
     getApiConfig (setupEnv env) = getApiConfig env)
  ∧ (baseUrl (getApiConfig env) = EmptyString →
     endpoint (getApiConfig env) = "/api/execution-items" →
     fullUrl (getApiConfig (setupEnv env)) = FULL_URL).
Proof.
  assert (baseUrl (getApiConfig (setupEnv env))
          = or_else (VITE_API_BASE_URL env) "http://localhost:3000") as Hbase.
  { cbn [getApiConfig setupEnv baseUrl VITE_API_BASE_URL].
    by rewrite or_else_Some_or_else. }
  assert (endpoint (getApiConfig (setupEnv env))
          = endpoint (getApiConfig env)) as Hendpoint.
  { cbn [getApiConfig setupEnv endpoint VITE_API_EXECUTION_ITEMS_ENDPOINT].
    by rewrite or_else_Some_or_else. }
  split_and!; [|done|done| | |].
  - unfold setupEnv. cbn [VITE_API_BASE_URL VITE_API_EXECUTION_ITEMS_ENDPOINT].
    by rewrite !or_else_Some_or_else.
  - rewrite Hbase. by apply or_else_nonempty.
  - intros Hset.
    assert (or_else (VITE_API_BASE_URL env) "http://localhost:3000"
            = baseUrl (getApiConfig env)) as Hsame.
    { cbn [getApiConfig baseUrl] in *. unfold or_else in *.
      destruct (VITE_API_BASE_URL env) as [b|]; [|done].
      by case_bool_decide. }
    cbn [getApiConfig baseUrl endpoint] in *. unfold getApiConfig.
    by rewrite Hbase, Hendpoint, Hsame.
  - intros Hunset Hdefault.
    assert (or_else (VITE_API_BASE_URL env) "http://localhost:3000"
            = "http://localhost:3000") as Hdef.
    { cbn [getApiConfig baseUrl] in Hunset. unfold or_else in *.
      destruct (VITE_API_BASE_URL env) as [b|]; [|done].
      by case_bool_decide. }
    cbn [getApiConfig baseUrl endpoint fullUrl] in *.
    by rewrite Hbase, Hendpoint, Hdef, Hdefault.
Qed.

(** ** Sorting the table *)

Lemma compareItems_ordered (config : TableSortConfig) (a b : ExecutionItem) :
  (compareItems config a b ≤ 0)%Z ↔ ordered config a b.
Proof.
  destruct config as [c []]; unfold ordered; simpl.
  - rewrite compareItems_asc. unfold String.leb.
    destruct (String.compare (column_value c a) (column_value c b));
      split; (done || lia).
  - rewrite compareItems_desc, compareItems_asc. unfold String.leb.
    rewrite (String.compare_antisym (column_value c b) (column_value c a)).
    destruct (String.compare (column_value c a) (column_value c b));
      simpl; split; (done || lia).
Qed.

Lemma StronglySorted_iff {A} (R1 R2 : A → A → Prop) (l : list A) :
  (∀ a b, R1 a b ↔ R2 a b) → StronglySorted R1 l → StronglySorted R2 l.
Proof.
  intros HR. induction 1 as [|a l Hl IH Hall]; constructor; [done|].
  eapply Forall_impl; [exact Hall|]. intros b. apply HR.
Qed.

Lemma compareItems_is_consistent (config : TableSortConfig) :
  consistent (compareItems config).
Proof.
  destruct config as [c d]. split_and!.
  - intros a. destruct d; [|rewrite compareItems_desc];
      by rewrite compareItems_asc, string_compare_refl.
  - assert (∀ a b, compareItems {| column := c; direction := asc |} b a
                   = (- compareItems {| column := c; direction := asc |} a b)%Z)
      as Hanti.
    { intros a b. rewrite !compareItems_asc.
      rewrite (String.compare_antisym (column_value c b) (column_value c a)).
      by destruct (String.compare (column_value c a) (column_value c b)). }
    intros a b. destruct d; [apply Hanti|].
    by rewrite !compareItems_desc, Hanti.
  - intros a b c'. rewrite !compareItems_ordered.
    destruct d; unfold ordered; simpl; unfold String.leb; intros Hab Hbc.
    + pose proof (string_compare_le_trans (column_value c a)
                    (column_value c b) (column_value c c')) as Hle.
      destruct (String.compare (column_value c a) (column_value c c'));
        [done..|]. destruct Hle; [| |done].
      * by destruct (String.compare (column_value c a) (column_value c b)).
      * by destruct (String.compare (column_value c b) (column_value c c')).
    + pose proof (string_compare_le_trans (column_value c c')
                    (column_value c b) (column_value c a)) as Hle.
      destruct (String.compare (column_value c c') (column_value c a));
        [done..|]. destruct Hle; [| |done].
      * by destruct (String.compare (column_value c c') (column_value c b)).
      * by destruct (String.compare (column_value c b) (column_value c a)).
Qed.

Section Sorting.
Context {engine_sort : ArraySort}.

Lemma sorted_by_config (config : TableSortConfig)
    (elements : list ExecutionItem) :
  array_sort (compareItems config) elements ≡ₚ elements
  ∧ StronglySorted (ordered config) (array_sort (compareItems config) elements).
Proof.
  split; [apply array_sort_permutation, compareItems_is_consistent|].
  eapply StronglySorted_iff; [apply compareItems_ordered|].
  apply array_sort_sorted, compareItems_is_consistent.
Qed.

(** X20: [sortExecutionItems] sorts the caller's array in place and returns
    that same array: afterwards it holds its former elements, ordered by the
    configured column, upwards for [asc] and downwards for [desc], and no
    other array has changed.  A second call on the array with another
    configuration returns the same array again, now in the second order: the
    result of the first call is reordered with it. *)
Theorem sortExecutionItems_in_place (items : nat) (config : TableSortConfig)
    (heap : gmap nat (list ExecutionItem)) (elements : list ExecutionItem) :
  heap !! items = Some elements →
  ∃ sorted,
    sortExecutionItems items config heap = (<[items := sorted]> heap, items)
    ∧ sorted ≡ₚ elements
    ∧ StronglySorted (ordered config) sorted
    ∧ ∀ config', ∃ sorted',
        sortExecutionItems items config'
          (sortExecutionItems items config heap).1
        = (<[items := sorted']> heap, items)
        ∧ sorted' ≡ₚ elements
        ∧ StronglySorted (ordered config') sorted'.
Proof.
  intros Hitems. exists (array_sort (compareItems config) elements).
  assert (sortExecutionItems items config heap
          = (<[items := array_sort (compareItems config) elements]> heap,
             items)) as Hfirst.
  { unfold sortExecutionItems. by rewrite Hitems. }
  destruct (sorted_by_config config elements) as [Hperm Hsorted].
  split_and!; [done..|]. intros config'.
  exists (array_sort (compareItems config')
            (array_sort (compareItems config) elements)).
  destruct (sorted_by_config config'
              (array_sort (compareItems config) elements))
    as [Hperm' Hsorted'].
  split_and!; [|by etrans|done].
  rewrite Hfirst. unfold sortExecutionItems. cbn [fst].
  by rewrite lookup_insert_eq, insert_insert_eq.
Qed.

End Sorting.

(** The two calls of the validation file on its sample: both results are
    the sample array itself, which ends ordered by owner, downwards, and is
    then no longer ordered by module name. *)
Lemma sortExecutionItems_in_place_witness :
  (∃ sorted,
     sortExecutionItems (engine_sort:=merge_sort_engine) 0 validConfig1
       {[ 0 := sampleItems ]}
     = (<[0 := sorted]> {[ 0 := sampleItems ]}, 0)
     ∧ sorted ≡ₚ sampleItems
     ∧ StronglySorted (ordered validConfig1) sorted
     ∧ ∀ config', ∃ sorted',
         sortExecutionItems (engine_sort:=merge_sort_engine) 0 config'
           (sortExecutionItems (engine_sort:=merge_sort_engine) 0
              validConfig1 {[ 0 := sampleItems ]}).1
         = (<[0 := sorted']> {[ 0 := sampleItems ]}, 0)
         ∧ sorted' ≡ₚ sampleItems
         ∧ StronglySorted (ordered config') sorted')
  ∧ (sortExecutionItems (engine_sort:=merge_sort_engine) 0 validConfig2
       (sortExecutionItems (engine_sort:=merge_sort_engine) 0 validConfig1
          {[ 0 := sampleItems ]}).1).1 !! 0
    = Some sampleItems
  ∧ ¬ StronglySorted (ordered validConfig1) sampleItems.
Proof.
  split_and!.
  - apply (sortExecutionItems_in_place (engine_sort:=merge_sort_engine)
             0 validConfig1 {[ 0 := sampleItems ]} sampleItems).
    reflexivity.
  - by vm_compute.
  - intros Hsorted. apply StronglySorted_inv in Hsorted as [_ Hall].
    apply Forall_cons in Hall as [Hab _]. vm_compute in Hab. discriminate Hab.
Defined.
